(** * batch_speech_text: the chunking / synthesis / assembly pipeline of src/app.py

    A shallow embedding of [src/app.py].  Python [str] values are lists of
    code points, Python [int] values are [Z], [pathlib.Path] values are lists
    of path components.  Effects (file writes, external calls, sleeps) are
    recorded as a trace of events next to the value or exception a call
    ends with. *)

From Stdlib Require Import String Ascii DecimalString DecimalPos.
From Stdlib Require Import List ZArith NArith Lia Bool Permutation Sorted.
Import ListNotations.

Set Implicit Arguments.

(* ================================================================== *)
(** * Python built-ins used by the program *)
(* ================================================================== *)

Module Py.

(** A [str] is a sequence of Unicode code points. *)
Definition char := N.
Definition str := list char.

(** String literals of the source, written as Rocq strings. *)
Definition lit (s : string) : str := map N_of_ascii (list_ascii_of_string s).

Definition space : char := 32%N.

(** [str.isspace] on one code point: the code points CPython treats as
    whitespace, which are the ones [str.strip()] removes. *)
Definition isspace (c : char) : bool :=
  ((9 <=? c) && (c <=? 13) || (28 <=? c) && (c <=? 32)
   || (c =? 133) || (c =? 160) || (c =? 5760)
   || (8192 <=? c) && (c <=? 8202)
   || (c =? 8232) || (c =? 8233) || (c =? 8239) || (c =? 8287)
   || (c =? 12288))%N.

Definition len (s : str) : Z := Z.of_nat (length s).

(** Normalisation of a slice bound against a sequence of length [n]:
    a negative bound counts from the end, and the result is clipped
    to [0..n]. *)
Definition clamp (n : nat) (i : Z) : nat :=
  if (i <? 0)%Z then Z.to_nat (Z.of_nat n + i) else Nat.min (Z.to_nat i) n.

(** [s[:i]] and [s[i:]]. *)
Definition slice_to (s : str) (i : Z) : str := firstn (clamp (length s) i) s.
Definition slice_from (s : str) (i : Z) : str := skipn (clamp (length s) i) s.

(** Highest position of [c] in [s], if any. *)
Fixpoint rindex (c : char) (s : str) : option nat :=
  match s with
  | [] => None
  | x :: r =>
      match rindex c r with
      | Some j => Some (S j)
      | None => if (x =? c)%N then Some 0%nat else None
      end
  end.

(** [s.rfind(c, 0, stop)] for a one-character needle: the highest index
    of [c] inside [s[0:stop]], or [-1]. *)
Definition rfind (s : str) (c : char) (stop : Z) : Z :=
  match rindex c (slice_to s stop) with
  | Some j => Z.of_nat j
  | None => (-1)%Z
  end.

Fixpoint lstrip (s : str) : str :=
  match s with
  | [] => []
  | c :: r => if isspace c then lstrip r else s
  end.

Definition rstrip (s : str) : str := rev (lstrip (rev s)).

(** [s.strip()]. *)
Definition strip (s : str) : str := rstrip (lstrip s).

(** Truth value of a [str]: non-empty. *)
Definition truthy (s : str) : bool :=
  match s with [] => false | _ :: _ => true end.

(** [s.startswith(p)]. *)
Fixpoint startswith (p s : str) : bool :=
  match p, s with
  | [], _ => true
  | _ :: _, [] => false
  | a :: p', b :: s' => (a =? b)%N && startswith p' s'
  end.

(** [s.endswith(p)]. *)
Definition endswith (p s : str) : bool := startswith (rev p) (rev s).

(** [s.split(sep)] for a non-empty [sep]: the pieces between the
    occurrences of [sep] met from left to right, occurrences never
    overlapping.  [skip] counts the characters of an occurrence still to
    be passed over, [cur] holds the current piece, reversed. *)
Fixpoint split_go (sep s : str) (skip : nat) (cur : str) : list str :=
  match s with
  | [] => [rev cur]
  | c :: r =>
      match skip with
      | S k => split_go sep r k cur
      | O =>
          if startswith sep s
          then rev cur :: split_go sep r (length sep - 1) []
          else split_go sep r 0 (c :: cur)
      end
  end.

Definition split (s sep : str) : list str := split_go sep s 0 [].

(** [l[-1]] on a list of strings that [split] returned (never empty). *)
Definition last_item (l : list str) : str := last l [].

(** [str(n)] for an [int]: its decimal numeral. *)
Definition str_of_int (n : Z) : str := lit (NilEmpty.string_of_int (Z.to_int n)).

Definition digit_value (c : char) : option Z :=
  if ((48 <=? c) && (c <=? 57))%N then Some (Z.of_N (c - 48)) else None.

(** The digits of an [int(...)] argument: decimal digits, where a single
    underscore may stand between two digits.  [after_digit] tells
    whether the previous character was a digit. *)
Fixpoint parse_digits (s : str) (acc : Z) (after_digit : bool) : option Z :=
  match s with
  | [] => if after_digit then Some acc else None
  | c :: r =>
      if (c =? 95)%N then
        if after_digit then parse_digits r acc false else None
      else
        match digit_value c with
        | Some d => parse_digits r (10 * acc + d) true
        | None => None
        end
  end.

(** [int(s)] in base ten; [None] is [ValueError].  Surrounding whitespace
    is ignored and one sign is accepted.  Only the ASCII digits are read
    as digits (CPython also reads the decimal digits of other scripts;
    the numerals [str_of_int] prints are ASCII). *)
Definition int (s : str) : option Z :=
  match strip s with
  | [] => None
  | c :: r =>
      if (c =? 45)%N then option_map Z.opp (parse_digits r 0 false)
      else if (c =? 43)%N then parse_digits r 0 false
      else parse_digits (c :: r) 0 false
  end.

(** [l.sort(key=...)] once every key is known: a stable sort, ascending
    in the key. *)
Section Sort.
Variable A : Type.

Fixpoint insert_by_key (k : Z) (x : A) (l : list (Z * A)) : list (Z * A) :=
  match l with
  | [] => [(k, x)]
  | (k', y) :: r =>
      if (k <=? k')%Z then (k, x) :: (k', y) :: r
      else (k', y) :: insert_by_key k x r
  end.

Fixpoint sort_keyed (l : list (Z * A)) : list (Z * A) :=
  match l with
  | [] => []
  | (k, x) :: r => insert_by_key k x (sort_keyed r)
  end.

(** The keys are computed for every element before any element moves;
    a key that raises makes the whole call raise. *)
Fixpoint keys_of (key : A -> option Z) (l : list A) : option (list (Z * A)) :=
  match l with
  | [] => Some []
  | x :: r =>
      match key x, keys_of key r with
      | Some k, Some kr => Some ((k, x) :: kr)
      | _, _ => None
      end
  end.

Definition sort_by (key : A -> option Z) (l : list A) : option (list A) :=
  option_map (fun kl => map snd (sort_keyed kl)) (keys_of key l).
End Sort.

End Py.

Import Py.

(* ================================================================== *)
(** * The Chunker: [split_text_into_chunks] *)
(* ================================================================== *)

(** The cut position chosen by one iteration of the loop body. *)
Definition split_index (text : str) (max_length : Z) : Z :=
  let split_index := rfind text space max_length in
  if (split_index =? -1)%Z then max_length else split_index.

(** The [while] loop, with the number of iterations it may still run. *)
Fixpoint split_loop (fuel : nat) (max_length : Z) (text : str) (chunks : list str)
  : option (list str) :=
  match fuel with
  | O => None
  | S fuel' =>
      if (len text >? max_length)%Z then
        let i := split_index text max_length in
        split_loop fuel' max_length
                   (strip (slice_from text i))
                   (chunks ++ [slice_to text i])
      else
        Some (if truthy text then chunks ++ [text] else chunks)
  end.

(** [split_text_into_chunks text max_length]; [None] stands for a loop
    that does not come to an end within [length text + 1] iterations. *)
Definition split_text_into_chunks (text : str) (max_length : Z) : option (list str) :=
  split_loop (S (length text)) max_length text [].

(* ================================================================== *)
(** * Paths *)
(* ================================================================== *)

(** A [pathlib.Path], as the sequence of its components. *)
Definition Path := list str.

(** [p / name] for a one-component [name]. *)
Definition joinpath (p : Path) (name : str) : Path := p ++ [name].
Notation "p // name" := (joinpath p name) (at level 40, left associativity).

(** [p.name]: the final component. *)
Definition path_name (p : Path) : str := last p [].

(** [p.stem]: the final component without its last suffix; a name whose
    only dot is its first or its last character has no suffix. *)
Definition path_stem (p : Path) : str :=
  let name := path_name p in
  match rindex 46%N name with
  | Some i => if ((0 <? i) && (i <? length name - 1))%nat then firstn i name else name
  | None => name
  end.

(** [p.resolve()]: the paths of the program are built from the absolute
    project root, so they are their own resolution. *)
Definition resolve (p : Path) : Path := p.

(** [inside d p]: [p] lies in the directory [d], at any depth. *)
Fixpoint inside (d p : Path) : bool :=
  match d, p with
  | [], _ :: _ => true
  | a :: d', b :: p' => if list_eq_dec N.eq_dec a b then inside d' p' else false
  | _, _ => false
  end.

Definition Path_eq_dec : forall p q : Path, {p = q} + {p <> q} :=
  list_eq_dec (list_eq_dec N.eq_dec).

(* ================================================================== *)
(** * Effects: traces of events and exceptions *)
(* ================================================================== *)

Inductive exn : Type :=
| ApiError (tag : nat)          (* raised by the speech service client *)
| IOError (tag : nat)           (* raised while reading or writing a file *)
| ValueError                    (* int() on a string that is no numeral *)
| AttributeError                (* attribute access on None *)
| CalledProcessError.           (* ffmpeg ended with a non-zero status *)

(** What the program does to the outside world.  Calls to [logging] are
    left out. *)
Inductive event : Type :=
| Read (p : Path)
| Mkdir (p : Path)
| SynthCall (input : str)
| OpenWrite (p : Path)
| Sleep (seconds : Z)
| WriteManifest (p : Path) (entries : list Path)
| Ffmpeg (manifest output : Path)
| Unlink (p : Path)
| Move (src dst : Path).

Definition trace := list event.

(** A computation: the events it performed and how it ended. *)
Definition M (A : Type) : Type := (trace * (exn + A))%type.

Definition ret {A} (x : A) : M A := ([], inr x).
Definition raise {A} (e : exn) : M A := ([], inl e).
Definition emit (ev : event) : M unit := ([ev], inr tt).

Definition bind {A B} (m : M A) (f : A -> M B) : M B :=
  match m with
  | (t, inl e) => (t, inl e)
  | (t, inr a) => let (t', r) := f a in (t ++ t', r)
  end.

(** [try: m  except Exception as e: h e]. *)
Definition try_except {A} (m : M A) (h : exn -> M A) : M A :=
  match m with
  | (t, inl e) => let (t', r) := h e in (t ++ t', r)
  | (t, inr a) => (t, inr a)
  end.

(** [try: m  finally: c]. *)
Definition try_finally {A} (m : M A) (c : M unit) : M A :=
  match m, c with
  | (t, r), (t', inr _) => (t ++ t', r)
  | (t, _), (t', inl e) => (t ++ t', inl e)
  end.

Notation "x <- m ;; k" := (bind m (fun x => k))
  (at level 61, m at next level, right associativity).
Notation "m ;; k" := (bind m (fun _ => k))
  (at level 61, right associativity).

(** [for x in l: f x], stopping at the first exception. *)
Fixpoint for_each {A B} (f : A -> M B) (l : list A) : M (list B) :=
  match l with
  | [] => ret []
  | x :: r => y <- f x ;; ys <- for_each f r ;; ret (y :: ys)
  end.

(* ================================================================== *)
(** * Configuration and the outside world *)
(* ================================================================== *)

(** The module-level constants read from the environment;
    [process_file] calls the chunker with [MAX_CHUNK_SIZE], the default
    of its [max_length] argument. *)
Record config : Type := {
  TEMP_FOLDER : Path;
  OUTPUT_FOLDER : Path;
  MAX_CHUNK_SIZE : Z
}.

Definition default_config : config :=
  {| TEMP_FOLDER := [lit "temp"];
     OUTPUT_FOLDER := [lit "output"];
     MAX_CHUNK_SIZE := 4096 |}.

(** How one call of [generate_audio] ends: the service call may raise,
    or writing the bytes into the opened file may raise. *)
Inductive attempt_outcome : Type :=
| Succeeds
| CreateRaises (e : exn)
| WriteRaises (e : exn).

(** Everything the program does not decide itself while one document is
    processed: the answer to each synthesis attempt (by chunk index and
    attempt number), the moment at which the task of each chunk index
    completes, and whether ffmpeg succeeds. *)
Record world : Type := {
  synth : nat -> nat -> attempt_outcome;
  finish_time : nat -> Z;
  ffmpeg_ok : bool
}.

(** An input file: its path and what reading it gives ([None]: the read
    raises). *)
Record document : Type := {
  doc_path : Path;
  doc_content : option str
}.

(* ================================================================== *)
(** * The Synthesis Client, the Assembler and the Run Coordinator *)
(* ================================================================== *)

Section Pipeline.

Variable cfg : config.
Variable w : world.

(** The file a chunk's audio is written to. *)
Definition output_audio_path (chunk_index : nat) (file_stem : str) : Path :=
  TEMP_FOLDER cfg // file_stem
    // (file_stem ++ lit "_part_" ++ str_of_int (Z.of_nat chunk_index + 1) ++ lit ".mp3").

(** [generate_audio chunk chunk_index file_stem]; [attempt] only selects
    what the world answers to this call. *)
Definition generate_audio (attempt : nat) (chunk : str) (chunk_index : nat)
           (file_stem : str) : M Path :=
  let temp_subdir := TEMP_FOLDER cfg // file_stem in
  emit (Mkdir temp_subdir) ;;
  let p := output_audio_path chunk_index file_stem in
  emit (SynthCall chunk) ;;
  match synth w chunk_index attempt with
  | CreateRaises e => raise e
  | WriteRaises e => emit (OpenWrite p) ;; raise e
  | Succeeds => emit (OpenWrite p) ;; ret p
  end.

(** The [for attempt in range(retries)] loop from [attempt] on, with
    [remaining] values of the range left.  Falling out of the loop
    returns [None]. *)
Fixpoint retry_loop (chunk : str) (chunk_index : nat) (file_stem : str)
         (retries : Z) (attempt remaining : nat) : M (option Path) :=
  match remaining with
  | O => ret None
  | S remaining' =>
      try_except
        (p <- generate_audio attempt chunk chunk_index file_stem ;; ret (Some p))
        (fun e =>
           if (Z.of_nat attempt <? retries - 1)%Z then
             emit (Sleep (2 ^ Z.of_nat attempt)) ;;
             retry_loop chunk chunk_index file_stem retries (S attempt) remaining'
           else raise e)
  end.

Definition generate_audio_with_retries (chunk : str) (chunk_index : nat)
           (file_stem : str) (retries : Z) : M (option Path) :=
  retry_loop chunk chunk_index file_stem retries 0 (Z.to_nat retries).

Definition default_retries : Z := 3.

Definition concat_file : Path := TEMP_FOLDER cfg // lit "concat_list.txt".

(** [combine_audio_files audio_files final_output_path]. *)
Definition combine_audio_files (audio_files : list Path) (final_output_path : Path)
  : M unit :=
  emit (WriteManifest concat_file (map resolve audio_files)) ;;
  try_finally
    (emit (Ffmpeg concat_file final_output_path) ;;
     if ffmpeg_ok w then ret tt else raise CalledProcessError)
    (emit (Unlink concat_file)).

(** The sort key of [process_file]:
    [int(x.stem.split('_part_')[-1])]. *)
Definition sort_key (x : option Path) : option Z :=
  match x with
  | Some p => int (last_item (split (path_stem p) (lit "_part_")))
  | None => None
  end.

Definition key_error (audio_files : list (option Path)) : exn :=
  if forallb (fun x => match x with Some _ => true | None => false end) audio_files
  then ValueError else AttributeError.

(** [enumerate]. *)
Definition enumerate {A} (l : list A) : list (nat * A) := combine (seq 0 (length l)) l.

Inductive status : Type :=
| Completed
| Skipped
| Hangs.

(** The pool runs every submitted task to its end, whatever the others
    do; the events of the tasks are listed task after task. *)
Definition run_pool {A} (futures : list (nat * M A)) : M unit :=
  (concat (map (fun f => fst (snd f)) futures), inr tt).

(** [as_completed futures]: the futures by the moment they complete. *)
Definition as_completed {A} (futures : list (nat * M A)) : list (M A) :=
  map snd (sort_keyed (map (fun f => (finish_time w (fst f), snd f)) futures)).

(** [future.result()]: what the task returned or raised; its events
    happened in the pool. *)
Definition future_result {A} (future : M A) : M A := ([], snd future).

(** The [try] block of [process_file]. *)
Definition process_file_body (file : document) : M status :=
  emit (Read (doc_path file)) ;;
  text_content <- match doc_content file with
                  | Some text => ret text
                  | None => raise (IOError 0)
                  end ;;
  if negb (truthy (strip text_content)) then ret Skipped
  else
    match split_text_into_chunks text_content (MAX_CHUNK_SIZE cfg) with
    | None => ret Hangs
    | Some chunks =>
        let file_stem := path_stem (doc_path file) in
        let futures :=
          map (fun '(i, chunk) =>
                 (i, generate_audio_with_retries chunk i file_stem default_retries))
              (enumerate chunks) in
        run_pool futures ;;
        audio_files <- for_each future_result (as_completed futures) ;;
        sorted <- match sort_by sort_key audio_files with
                  | Some l => ret l
                  | None => raise (key_error audio_files)
                  end ;;
        let file_output_folder := OUTPUT_FOLDER cfg // file_stem in
        emit (Mkdir file_output_folder) ;;
        let final_output_path := file_output_folder // (file_stem ++ lit ".mp3") in
        combine_audio_files
          (flat_map (fun x => match x with Some p => [p] | None => [] end) sorted)
          final_output_path ;;
        let processed_file_path :=
          file_output_folder // (file_stem ++ lit ".processed.txt") in
        emit (Move (doc_path file) processed_file_path) ;;
        ret Completed
    end.

(** How the processing of one document ended. *)
Inductive outcome : Type :=
| Ended (s : status)
| Failed (e : exn).

(** [process_file file]: every exception of the body is caught and
    logged. *)
Definition process_file (file : document) : trace * outcome :=
  match process_file_body file with
  | (t, inr s) => (t, Ended s)
  | (t, inl e) => (t, Failed e)
  end.

End Pipeline.

(** A world in which every synthesis attempt and ffmpeg succeed and the
    task of chunk [i] completes at moment [finish i]. *)
Definition all_succeed (finish : nat -> Z) : world :=
  {| synth := fun _ _ => Succeeds; finish_time := finish; ffmpeg_ok := true |}.

Definition text_file (folder : Path) (name : string) (content : string) : document :=
  {| doc_path := folder // lit name; doc_content := Some (lit content) |}.

Definition in_index_order : nat -> Z := Z.of_nat.

(** Tasks 2, 0, 1 complete in this order. *)
Definition order_2_0_1 (i : nat) : Z :=
  match i with 2%nat => 0 | 0%nat => 1 | _ => 2 end.


(* ================================================================== *)
(** * Observations on texts and traces, used to state the properties *)
(* ================================================================== *)

Definition whitespace_only (s : str) : bool := forallb isspace s.

(** A text with every whitespace character taken out. *)
Definition remove_ws (s : str) : str := filter (fun c => negb (isspace c)) s.

(** [c1 ++ g1 ++ c2 ++ g2 ++ ...]: the chunks, each followed by a gap. *)
Fixpoint interleave (chunks gaps : list str) : str :=
  match chunks, gaps with
  | c :: cs, g :: gs => c ++ g ++ interleave cs gs
  | _, _ => []
  end.

(** What one run of the loop body of the chunker leaves of the text. *)
Definition remaining_text (text : str) (max_length : Z) : str :=
  strip (slice_from text (split_index text max_length)).

(** [has_word_longer_than L T]: [T] contains a run of non-whitespace
    characters longer than [L]. *)
Definition has_word_longer_than (L : Z) (T : str) : Prop :=
  exists pre word post,
    T = pre ++ word ++ post /\ remove_ws word = word /\ (L < len word)%Z.

Definition sleeps (t : trace) : list Z :=
  flat_map (fun ev => match ev with Sleep n => [n] | _ => [] end) t.

Definition synth_calls (t : trace) : list str :=
  flat_map (fun ev => match ev with SynthCall c => [c] | _ => [] end) t.

Definition writes (t : trace) : list Path :=
  flat_map (fun ev => match ev with OpenWrite p => [p] | _ => [] end) t.

Definition manifests (t : trace) : list (Path * list Path) :=
  flat_map (fun ev => match ev with WriteManifest p l => [(p, l)] | _ => [] end) t.

(** The intermediate files a trace writes: chunk audio and manifests. *)
Definition intermediate_files (t : trace) : list Path :=
  flat_map (fun ev => match ev with
                      | OpenWrite p => [p]
                      | WriteManifest p _ => [p]
                      | _ => []
                      end) t.

(** An event of the Assembler: the manifest or the ffmpeg run. *)
Definition is_assembly (ev : event) : bool :=
  match ev with
  | WriteManifest _ _ | Ffmpeg _ _ => true
  | _ => false
  end.

Definition assembly_ran (t : trace) : bool := existsb is_assembly t.


(** The first attempt among [0 .. n-1], counted from [from], that the
    world lets succeed. *)
Fixpoint first_success (answers : nat -> attempt_outcome) (from n : nat) : option nat :=
  match n with
  | O => None
  | S n' =>
      match answers from with
      | Succeeds => Some from
      | _ => first_success answers (S from) n'
      end
  end.

Definition error_of (o : attempt_outcome) : option exn :=
  match o with
  | Succeeds => None
  | CreateRaises e | WriteRaises e => Some e
  end.

(** The waits [2^0, 2^1, ..., 2^(k-1)]. *)
Definition backoff (k : nat) : list Z := map (fun a => 2 ^ Z.of_nat a)%Z (seq 0 k).

(** [glued chunks text]: [text] is the chunks in order, each followed by
    whitespace, the way the loop of the chunker takes the text apart: a
    chunk, the whitespace stripped in front of the rest, the rest, and
    the whitespace stripped behind it. *)
Inductive glued : list str -> str -> Prop :=
| glued_nil : glued [] []
| glued_cons (c : str) (cs : list str) (lead rest trail : str) :
    whitespace_only lead = true ->
    whitespace_only trail = true ->
    glued cs rest ->
    glued (c :: cs) (c ++ lead ++ rest ++ trail).

(** What a chunk task of the document with stem [file_stem] may do: make
    the document's working directory, call the service, sleep, and write
    a chunk file of that document. *)
Definition task_event (cfg : config) (file_stem : str) (ev : event) : Prop :=
  match ev with
  | Mkdir q => q = TEMP_FOLDER cfg // file_stem
  | SynthCall _ | Sleep _ => True
  | OpenWrite q => exists i, q = output_audio_path cfg i file_stem
  | _ => False
  end.

(** A world whose first two attempts on every chunk fail. *)
Definition fails_twice (finish : nat -> Z) : world :=
  {| synth := fun _ attempt =>
                if (attempt <? 2)%nat then CreateRaises (ApiError attempt) else Succeeds;
     finish_time := finish;
     ffmpeg_ok := true |}.

(** A world in which no attempt on chunk [bad] ever succeeds. *)
Definition chunk_always_fails (bad : nat) (finish : nat -> Z) : world :=
  {| synth := fun i attempt =>
                if (i =? bad)%nat then WriteRaises (IOError attempt) else Succeeds;
     finish_time := finish;
     ffmpeg_ok := true |}.

(** What [for future in as_completed(...): audio_files.append(future.result())]
    ends with: the results in order, or the first exception met. *)
Fixpoint results {A} (futures : list (M A)) : exn + list A :=
  match futures with
  | [] => inr []
  | (_, inl e) :: _ => inl e
  | (_, inr a) :: rest =>
      match results rest with
      | inl e => inl e
      | inr l => inr (a :: l)
      end
  end.

(** The futures [process_file] submits for the chunks of a document. *)
Definition chunk_futures (cfg : config) (w : world) (file_stem : str)
           (chunks : list str) : list (nat * M (option Path)) :=
  map (fun '(i, chunk) =>
         (i, generate_audio_with_retries cfg w chunk i file_stem default_retries))
      (enumerate chunks).

(** The events of all chunk tasks of a document. *)
Definition pool_events (cfg : config) (w : world) (file_stem : str)
           (chunks : list str) : trace :=
  concat (map (fun f => fst (snd f)) (chunk_futures cfg w file_stem chunks)).

(** The paths in a sorted list of task results. *)
Definition paths_of (sorted : list (option Path)) : list Path :=
  flat_map (fun x => match x with Some p => [p] | None => [] end) sorted.

(** The events of the Assembler for a document, up to the removal of the
    manifest. *)
Definition assembly_events (cfg : config) (file_stem : str) (files : list Path) : trace :=
  let out := OUTPUT_FOLDER cfg // file_stem in
  [ Mkdir out;
    WriteManifest (concat_file cfg) files;
    Ffmpeg (concat_file cfg) (out // (file_stem ++ lit ".mp3"));
    Unlink (concat_file cfg) ].

Definition processed_file_path (cfg : config) (file_stem : str) : Path :=
  OUTPUT_FOLDER cfg // file_stem // (file_stem ++ lit ".processed.txt").

(** What a future gives when its task returned ([None] also when it
    raised). *)
Definition returned {A} (future : M (option A)) : option A :=
  match snd future with
  | inr x => x
  | inl _ => None
  end.

(** The chunk files of a document with [n] chunks, by chunk index. *)
Definition chunk_files (cfg : config) (file_stem : str) (n : nat) : list Path :=
  map (fun i => output_audio_path cfg i file_stem) (seq 0 n).

(** An ASCII decimal digit. *)
Definition is_digit (c : char) : Prop := (48 <= c <= 57)%N.

(** The characters of a decimal numeral. *)
Definition numeral (d : Decimal.uint) : str := lit (NilEmpty.string_of_uint d).

(** [unfinished u]: [u] does not end with "_part", the separator less its
    last character. *)
Definition unfinished (u : str) : Prop := forall pre, u <> pre ++ lit "_part".

(** Orders on keyed elements, by key. *)
Definition key_le {A} (a b : Z * A) : Prop := (fst a <= fst b)%Z.
Definition key_lt {A} (a b : Z * A) : Prop := (fst a < fst b)%Z.

(* ================================================================== *)
(** * The loop of the Chunker, with the branch taken at each cut *)
(* ================================================================== *)

(** How a chunk came about: cut at the last space among the first
    [max_length] characters, cut at [max_length] because there is no
    space among them, or the rest appended after the loop. *)
Inductive cut : Type :=
| AtSpace
| Forced
| Rest.

(** [split_loop], each chunk paired with the branch of the loop body
    that produced it: [Forced] when [rfind] gave -1, [AtSpace]
    otherwise; [Rest] for the text appended by [if text:]. *)
Fixpoint split_loop_cuts (fuel : nat) (max_length : Z) (text : str)
         (chunks : list (str * cut)) : option (list (str * cut)) :=
  match fuel with
  | O => None
  | S fuel' =>
      if (len text >? max_length)%Z then
        let found := rfind text space max_length in
        let i := if (found =? -1)%Z then max_length else found in
        split_loop_cuts fuel' max_length
                        (strip (slice_from text i))
                        (chunks ++ [(slice_to text i,
                                     if (found =? -1)%Z then Forced else AtSpace)])
      else
        Some (if truthy text then chunks ++ [(text, Rest)] else chunks)
  end.

Definition split_text_cuts (text : str) (max_length : Z) : option (list (str * cut)) :=
  split_loop_cuts (S (length text)) max_length text [].

(** What holds of a chunk cut in the loop: shorter than [max_length]
    when cut at a space, exactly [max_length] long and free of spaces
    when the cut was forced. *)
Definition loop_cut_ok (max_length : Z) (ck : str * cut) : Prop :=
  match snd ck with
  | AtSpace => (len (fst ck) < max_length)%Z
  | Forced => len (fst ck) = max_length /\ rindex space (fst ck) = None
  | Rest => False
  end.

(* ================================================================== *)
(** * Paths with "." and ".." resolved *)
(* ================================================================== *)

(** The components of a path, read from the left onto [acc] (the
    components kept so far, last first): an empty component and "." are
    dropped, ".." drops the component before it. *)
Fixpoint normalize_from (acc : Path) (p : Path) : Path :=
  match p with
  | [] => rev acc
  | c :: r =>
      if list_eq_dec N.eq_dec c [] then normalize_from acc r
      else if list_eq_dec N.eq_dec c (lit ".") then normalize_from acc r
      else if list_eq_dec N.eq_dec c (lit "..") then normalize_from (tl acc) r
      else normalize_from (c :: acc) r
  end.

Definition normalize (p : Path) : Path := normalize_from [] p.

(** [within d p]: the file [p] lies in the directory [d], at any depth,
    once "." and ".." are resolved in both. *)
Definition within (d p : Path) : bool := inside (normalize d) (normalize p).

(* ================================================================== *)
(** * Further observations *)
(* ================================================================== *)

(** A chunk that begins with a character that is not whitespace. *)
Definition begins_with_text (c : str) : bool :=
  match c with
  | [] => false
  | h :: _ => negb (isspace h)
  end.

(** A text that does not begin with a space. *)
Definition no_leading_space (text : str) : bool :=
  match text with
  | [] => true
  | h :: _ => negb (h =? space)%N
  end.


Definition unlinks (t : trace) : list Path :=
  flat_map (fun ev => match ev with Unlink p => [p] | _ => [] end) t.

Definition moves (t : trace) : list (Path * Path) :=
  flat_map (fun ev => match ev with Move a b => [(a, b)] | _ => [] end) t.

(** The synthesis calls of the task for one chunk. *)
Definition calls_of (cfg : config) (w : world) (file_stem : str) (e : nat * str) : list str :=
  synth_calls (fst (generate_audio_with_retries cfg w (snd e) (fst e) file_stem
                                                 default_retries)).

(** A world in which every synthesis attempt succeeds and ffmpeg fails. *)
Definition ffmpeg_fails (finish : nat -> Z) : world :=
  {| synth := fun _ _ => Succeeds; finish_time := finish; ffmpeg_ok := false |}.

(* ================================================================== *)
(** * The model on concrete values *)
(* ================================================================== *)

Example rfind_examples :
  rfind (lit " abcdef") space 3 = 0%Z /\
  rfind (lit "abc def") space 3 = (-1)%Z /\
  rfind (lit "abc def") space 4 = 3%Z /\
  rfind (lit "a b c") space (-1) = 3%Z.
Proof. repeat split. Qed.

Example strip_examples :
  strip (lit "  a b  ") = lit "a b" /\
  strip (9 :: 10 :: 160 :: 8195 :: lit "x" ++ [12288; 13])%N = lit "x" /\
  strip (lit "   ") = [].
Proof. repeat split. Qed.

Example split_examples :
  split (lit "doc_part_12") (lit "_part_") = [lit "doc"; lit "12"] /\
  split (lit "a_part_b_part_3") (lit "_part_") = [lit "a"; lit "b"; lit "3"] /\
  split (lit "x_part_part_1") (lit "_part_") = [lit "x"; lit "part_1"] /\
  split (lit "_part_part_part_1") (lit "_part_") = [lit ""; lit "part"; lit "1"].
Proof. repeat split. Qed.

Example int_examples :
  int (lit "12") = Some 12%Z /\ int (lit " 12 ") = Some 12%Z /\
  int (lit "1_0") = Some 10%Z /\ int (lit "-4") = Some (-4)%Z /\
  int (lit "") = None /\ int (lit "_1") = None /\ int (lit "1__0") = None /\
  int (lit "part_1") = None.
Proof. repeat split. Qed.

Example path_stem_examples :
  path_stem [lit "temp"; lit "x"; lit "x_part_1.mp3"] = lit "x_part_1" /\
  path_stem [lit "input"; lit "a.b.txt"] = lit "a.b" /\
  path_stem [lit "input"; lit ".txt"] = lit ".txt".
Proof. repeat split. Qed.

Example sort_is_stable :
  sort_by (fun x => Some (Z.of_nat (fst x)))
          [(1, lit "a"); (0, lit "b"); (1, lit "c"); (0, lit "d")]%nat
  = Some [(0, lit "b"); (0, lit "d"); (1, lit "a"); (1, lit "c")]%nat.
Proof. reflexivity. Qed.

Example split_text_examples :
  split_text_into_chunks (lit "hello big world  ") 8
  = Some [lit "hello"; lit "big"; lit "world"] /\
  split_text_into_chunks (lit "abcdefgh") 3 = Some [lit "abc"; lit "def"; lit "gh"] /\
  split_text_into_chunks (lit "") 3 = Some [] /\
  split_text_into_chunks (lit "a b") 0 = None.
Proof. repeat split. Qed.

(* ================================================================== *)
(** * Facts about the built-ins *)
(* ================================================================== *)

Section StringFacts.

Lemma isspace_space : isspace space = true.
Proof. reflexivity. Qed.

Lemma lstrip_length (s : str) : (length (lstrip s) <= length s)%nat.
Proof.
  induction s as [|c r IH]; simpl; [lia|].
  destruct (isspace c); simpl; lia.
Qed.

Lemma rstrip_length (s : str) : (length (rstrip s) <= length s)%nat.
Proof.
  unfold rstrip. rewrite length_rev.
  pose proof (lstrip_length (rev s)) as H. rewrite length_rev in H. exact H.
Qed.

Lemma strip_length (s : str) : (length (strip s) <= length s)%nat.
Proof.
  unfold strip. pose proof (rstrip_length (lstrip s)). pose proof (lstrip_length s). lia.
Qed.

(** [lstrip] takes a whitespace prefix away and nothing else. *)
Lemma lstrip_decompose (s : str) :
  exists lead, whitespace_only lead = true /\ s = lead ++ lstrip s.
Proof.
  induction s as [|c r [lead [Hw He]]].
  - exists []. split; reflexivity.
  - simpl. destruct (isspace c) eqn:Hc.
    + exists (c :: lead). split.
      * simpl. rewrite Hc. exact Hw.
      * simpl. congruence.
    + exists []. split; reflexivity.
Qed.

Lemma whitespace_only_rev (s : str) :
  whitespace_only (rev s) = whitespace_only s.
Proof.
  unfold whitespace_only.
  destruct (forallb isspace s) eqn:H.
  - apply forallb_forall. intros x Hx. apply in_rev in Hx.
    rewrite forallb_forall in H. auto.
  - destruct (forallb isspace (rev s)) eqn:H'; [|reflexivity].
    rewrite forallb_forall in H'.
    assert (forallb isspace s = true) as H2.
    { apply forallb_forall. intros x Hx. apply H'. apply in_rev. rewrite rev_involutive. exact Hx. }
    congruence.
Qed.

Lemma rstrip_decompose (s : str) :
  exists trail, whitespace_only trail = true /\ s = rstrip s ++ trail.
Proof.
  destruct (lstrip_decompose (rev s)) as [lead [Hw He]].
  exists (rev lead). split.
  - rewrite whitespace_only_rev. exact Hw.
  - unfold rstrip. rewrite <- rev_app_distr, <- He, rev_involutive. reflexivity.
Qed.

(** [strip] takes a whitespace prefix and a whitespace suffix away. *)
Lemma strip_decompose (s : str) :
  exists lead trail,
    whitespace_only lead = true /\ whitespace_only trail = true /\
    s = lead ++ strip s ++ trail.
Proof.
  destruct (lstrip_decompose s) as [lead [Hl El]].
  destruct (rstrip_decompose (lstrip s)) as [trail [Ht Et]].
  exists lead, trail. repeat split; try assumption.
  unfold strip. rewrite <- Et. exact El.
Qed.

Lemma lstrip_space_head (c : char) (r : str) :
  isspace c = true -> (length (strip (c :: r)) < length (c :: r))%nat.
Proof.
  intros Hc. unfold strip. simpl lstrip. rewrite Hc.
  pose proof (rstrip_length (lstrip r)). pose proof (lstrip_length r).
  simpl. lia.
Qed.

Lemma rindex_Some (c : char) (s : str) (j : nat) :
  rindex c s = Some j -> (j < length s)%nat /\ nth_error s j = Some c.
Proof.
  revert j. induction s as [|x r IH]; simpl; intros j H; [discriminate|].
  destruct (rindex c r) as [k|] eqn:Hr.
  - injection H as <-. destruct (IH k eq_refl) as [Hlt Hn]. split; [lia|exact Hn].
  - destruct (N.eqb_spec x c) as [->|]; [|discriminate].
    injection H as <-. split; [lia|reflexivity].
Qed.

Lemma clamp_nonneg (n : nat) (i : Z) :
  (0 <= i)%Z -> clamp n i = Nat.min (Z.to_nat i) n.
Proof.
  intros H. unfold clamp. destruct (Z.ltb_spec i 0); [lia|reflexivity].
Qed.

Lemma slice_join (s : str) (i : Z) : slice_to s i ++ slice_from s i = s.
Proof. apply firstn_skipn. Qed.

End StringFacts.

(* ================================================================== *)
(** * The Chunker *)
(* ================================================================== *)

Section Chunker.

Variable max_length : Z.
Hypothesis max_length_positive : (1 <= max_length)%Z.

(** The cut lies in [0 .. max_length]; a cut at 0 means the text
    starts with a space. *)
Lemma split_index_range (text : str) :
  (len text > max_length)%Z ->
  let i := split_index text max_length in
  (0 <= i <= max_length)%Z /\
  (i = 0%Z -> exists r, text = space :: r).
Proof.
  intros Hlen. unfold split_index, rfind.
  destruct (rindex space (slice_to text max_length)) as [j|] eqn:Hj.
  - apply rindex_Some in Hj. destruct Hj as [Hlt Hnth].
    unfold slice_to in Hlt, Hnth. rewrite clamp_nonneg in Hlt, Hnth by lia.
    rewrite length_firstn in Hlt.
    destruct (Z.eqb_spec (Z.of_nat j) (-1)); [lia|].
    cbv zeta. split; [lia|].
    intros H0. assert (j = 0%nat) by lia. subst j.
    destruct text as [|c r]; [simpl in Hlt; lia|].
    destruct (Nat.min (Z.to_nat max_length) (length (c :: r))) eqn:Hm; [simpl in Hlt; lia|].
    simpl in Hnth. injection Hnth as ->. eauto.
  - simpl. split; [lia|]. intros; lia.
Qed.

(** Each run of the loop body strictly shortens the text. *)
Lemma loop_body_shortens (text : str) :
  (len text > max_length)%Z ->
  (length (remaining_text text max_length) < length text)%nat.
Proof.
  intros Hlen. unfold remaining_text.
  destruct (split_index_range text Hlen) as [Hr H0].
  set (i := split_index text max_length) in *.
  destruct (Z.eq_dec i 0) as [Hi|Hi].
  - destruct (H0 Hi) as [r ->]. rewrite Hi.
    unfold slice_from. rewrite clamp_nonneg by lia. simpl skipn.
    apply lstrip_space_head. reflexivity.
  - pose proof (strip_length (slice_from text i)) as Hs.
    unfold slice_from in *. rewrite clamp_nonneg in * by lia.
    rewrite length_skipn in Hs. unfold len in Hlen. lia.
Qed.

(** With more iterations allowed than the text has characters, the
    loop ends. *)
Lemma split_loop_terminates (fuel : nat) :
  forall text chunks,
    (length text < fuel)%nat ->
    exists result, split_loop fuel max_length text chunks = Some result.
Proof.
  induction fuel as [|fuel IH]; intros text chunks Hf; [lia|].
  simpl. destruct (Z.gtb_spec (len text) max_length) as [Hgt|Hle].
  - apply IH. pose proof (@loop_body_shortens text ltac:(lia)) as H.
    unfold remaining_text in H. lia.
  - eauto.
Qed.

(** The result does not depend on how many spare iterations there are. *)
Lemma split_loop_fuel_irrelevant (fuel : nat) :
  forall fuel' text chunks result,
    split_loop fuel max_length text chunks = Some result ->
    (fuel <= fuel')%nat ->
    split_loop fuel' max_length text chunks = Some result.
Proof.
  induction fuel as [|fuel IH]; intros fuel' text chunks result H Hle; [discriminate|].
  destruct fuel' as [|fuel']; [lia|].
  simpl in *. destruct (len text >? max_length)%Z.
  - eapply IH; [exact H|lia].
  - exact H.
Qed.

End Chunker.

Section ChunkerResult.

Variable max_length : Z.
Hypothesis max_length_positive : (1 <= max_length)%Z.

(** What the loop adds to [chunks] is glued to the text it was given,
    and no chunk is longer than [max_length]. *)
Lemma split_loop_spec (fuel : nat) :
  forall text chunks result,
    split_loop fuel max_length text chunks = Some result ->
    exists cs,
      result = chunks ++ cs /\ glued cs text /\
      Forall (fun c => (len c <= max_length)%Z) cs.
Proof.
  induction fuel as [|fuel IH]; intros text chunks result H; [discriminate|].
  simpl in H. destruct (Z.gtb_spec (len text) max_length) as [Hgt|Hle].
  - apply IH in H. destruct H as [cs [-> [Hg Hb]]].
    destruct (@split_index_range max_length max_length_positive text ltac:(lia)) as [Hr _].
    set (i := split_index text max_length) in *.
    exists (slice_to text i :: cs). split; [now rewrite <- app_assoc|]. split.
    + destruct (strip_decompose (slice_from text i)) as [lead [trail [Hl [Ht He]]]].
      rewrite <- (slice_join text i) at 2. rewrite He.
      now constructor.
    + constructor; [|exact Hb].
      unfold len, slice_to. rewrite clamp_nonneg by lia. rewrite length_firstn. lia.
  - injection H as <-. destruct text as [|c r]; simpl.
    + exists []. split; [now rewrite app_nil_r|]. split; constructor.
    + exists [c :: r]. split; [reflexivity|]. split.
      * pose proof (@glued_cons (c :: r) [] [] [] [] eq_refl eq_refl glued_nil) as G.
        simpl in G. rewrite app_nil_r in G. exact G.
      * constructor; [lia|constructor].
Qed.

End ChunkerResult.

Lemma whitespace_only_app (a b : str) :
  whitespace_only (a ++ b) = whitespace_only a && whitespace_only b.
Proof. apply forallb_app. Qed.

Lemma remove_ws_whitespace (s : str) : whitespace_only s = true -> remove_ws s = [].
Proof.
  induction s as [|c r IH]; simpl; [reflexivity|].
  intros H. apply andb_prop in H. destruct H as [Hc Hr]. rewrite Hc. simpl. auto.
Qed.

Lemma remove_ws_app (a b : str) : remove_ws (a ++ b) = remove_ws a ++ remove_ws b.
Proof. apply filter_app. Qed.

(** A glued text, with more whitespace behind it, is the chunks
    interleaved with whitespace gaps. *)
Lemma glued_gaps (cs : list str) (text : str) :
  glued cs text ->
  forall extra, whitespace_only extra = true ->
    (cs = [] /\ text = []) \/
    exists gaps,
      length gaps = length cs /\
      Forall (fun g => whitespace_only g = true) gaps /\
      text ++ extra = interleave cs gaps.
Proof.
  induction 1 as [|c cs lead rest trail Hl Ht Hg IH]; intros extra He; [left; auto|].
  right. destruct (IH (trail ++ extra)) as [[-> ->]|[gaps [Hn [Hw Heq]]]].
  - rewrite whitespace_only_app, Ht, He. reflexivity.
  - exists [lead ++ trail ++ extra]. split; [reflexivity|]. split.
    + constructor; [|constructor].
      rewrite !whitespace_only_app, Hl, Ht, He. reflexivity.
    + simpl. rewrite app_nil_r, <- !app_assoc. reflexivity.
  - exists (lead :: gaps). split; [simpl; congruence|]. split.
    + constructor; assumption.
    + simpl. rewrite <- Heq, <- !app_assoc. reflexivity.
Qed.

Lemma remove_ws_interleave (cs gaps : list str) :
  length gaps = length cs ->
  Forall (fun g => whitespace_only g = true) gaps ->
  remove_ws (interleave cs gaps) = remove_ws (concat cs).
Proof.
  revert gaps. induction cs as [|c cs IH]; intros [|g gaps] Hn Hw; simpl in *;
    try discriminate; [reflexivity|].
  inversion Hw; subst.
  rewrite !remove_ws_app, (@remove_ws_whitespace g) by assumption.
  simpl. f_equal. apply IH; [lia|assumption].
Qed.

(** The chunker on a text, in one statement: it ends, what it returns is
    glued to the text, and no chunk is longer than [max_length]. *)
Lemma split_text_into_chunks_spec (text : str) (max_length : Z) :
  (1 <= max_length)%Z ->
  exists chunks,
    split_text_into_chunks text max_length = Some chunks /\
    glued chunks text /\
    Forall (fun c => (len c <= max_length)%Z) chunks.
Proof.
  intros HL. unfold split_text_into_chunks.
  destruct (@split_loop_terminates max_length HL (S (length text)) text []) as [result Hr]; [lia|].
  destruct (@split_loop_spec max_length HL _ _ _ _ Hr) as [cs [-> [Hg Hb]]].
  exists cs. auto.
Qed.

(** ** C8 *)

(** C8 -- Chunker termination: for every text and every max_length >= 1
    the loop of [split_text_into_chunks] ends and returns its chunks (with
    any number of iterations allowed beyond the length of the text), and
    each run of the loop body strictly shortens the remaining text. *)
Theorem C8_chunker_terminates (text : str) (max_length : Z) :
  (1 <= max_length)%Z ->
  (exists chunks,
      split_text_into_chunks text max_length = Some chunks /\
      forall fuel, (length text < fuel)%nat ->
                   split_loop fuel max_length text [] = Some chunks) /\
  (forall t, (len t > max_length)%Z ->
             (length (remaining_text t max_length) < length t)%nat).
Proof.
  intros HL. split.
  - destruct (@split_loop_terminates max_length HL (S (length text)) text []) as [chunks Hc]; [lia|].
    exists chunks. split; [exact Hc|].
    intros fuel Hf. eapply split_loop_fuel_irrelevant; [exact Hc|lia].
  - intros t Ht. now apply loop_body_shortens.
Qed.

Lemma C8_chunker_terminates_witness :
  (exists chunks,
      split_text_into_chunks (lit "hello big world") 8 = Some chunks /\
      split_loop 100 8 (lit "hello big world") [] = Some chunks) /\
  (length (remaining_text (lit "hello big world") 8) < length (lit "hello big world"))%nat.
Proof.
  destruct (@C8_chunker_terminates (lit "hello big world") 8 ltac:(lia))
    as [[chunks [Hs Hf]] Hshort].
  split.
  - exists chunks. split; [exact Hs|]. apply Hf. simpl. lia.
  - apply Hshort. reflexivity.
Defined.

(** ** C2 *)

(** C2 (as the spec words its last clause) fails: a chunk can be exactly
    max_length long with no forced cut and no word longer than
    max_length.  The text "abc" with max_length 3 never enters the loop
    and comes back as the one chunk "abc". *)
Lemma C2_counterexample :
  lit "abc" <> [] /\ (1 <= 3)%Z /\
  split_text_into_chunks (lit "abc") 3 = Some [lit "abc"] /\
  len (lit "abc") = 3%Z /\
  ~ has_word_longer_than 3 (lit "abc").
Proof.
  split; [discriminate|]. split; [lia|]. split; [reflexivity|]. split; [reflexivity|].
  intros [pre [word [post [He [_ Hlen]]]]].
  apply (f_equal (@length char)) in He. rewrite !length_app in He.
  unfold len in Hlen. simpl in He. lia.
Qed.

(** Without the branches the recorded loop is the loop. *)
Lemma split_loop_cuts_erase (fuel : nat) (max_length : Z) :
  forall text cuts,
    option_map (map fst) (split_loop_cuts fuel max_length text cuts)
    = split_loop fuel max_length text (map fst cuts).
Proof.
  induction fuel as [|fuel IH]; intros text cuts; [reflexivity|].
  simpl. destruct (len text >? max_length)%Z.
  - rewrite IH, map_app. reflexivity.
  - destruct text; simpl; [reflexivity|]. now rewrite map_app.
Qed.

(** The chunks cut in the loop come first and obey [loop_cut_ok]; the
    rest, if there is one, comes last and fits. *)
Lemma split_loop_cuts_spec (max_length : Z) (fuel : nat) :
  (1 <= max_length)%Z ->
  forall text cuts result,
    split_loop_cuts fuel max_length text cuts = Some result ->
    exists loop_cuts rest,
      result = cuts ++ loop_cuts ++ rest /\
      Forall (loop_cut_ok max_length) loop_cuts /\
      (rest = [] \/
       exists r, rest = [(r, Rest)] /\ r <> [] /\ (len r <= max_length)%Z).
Proof.
  intros HL. induction fuel as [|fuel IH]; intros text cuts result H; [discriminate|].
  simpl in H. destruct (Z.gtb_spec (len text) max_length) as [Hgt|Hle].
  - apply IH in H. destruct H as [lc [rest [-> [Hlc Hrest]]]].
    set (found := rfind text space max_length) in *.
    exists ((slice_to text (if (found =? -1)%Z then max_length else found),
             if (found =? -1)%Z then Forced else AtSpace) :: lc), rest.
    split; [now rewrite <- app_assoc|]. split; [|exact Hrest].
    constructor; [|exact Hlc].
    unfold loop_cut_ok, found, rfind, slice_to, len in *. cbn [fst snd].
    destruct (rindex space (firstn (clamp (length text) max_length) text)) as [j|] eqn:Hj.
    + apply rindex_Some in Hj. destruct Hj as [Hlt _].
      rewrite clamp_nonneg in Hlt by lia. rewrite length_firstn in Hlt.
      destruct (Z.eqb_spec (Z.of_nat j) (-1)); [lia|].
      rewrite clamp_nonneg by lia. rewrite length_firstn. lia.
    + simpl. split; [|exact Hj].
      rewrite clamp_nonneg by lia. rewrite length_firstn. lia.
  - injection H as <-. destruct text as [|h r]; simpl.
    + exists [], []. split; [now rewrite app_nil_r|]. split; [constructor|now left].
    + exists [], [(h :: r, Rest)]. split; [reflexivity|]. split; [constructor|].
      right. exists (h :: r). split; [reflexivity|]. split; [discriminate|lia].
Qed.

(** C2, amended -- for every non-empty text T and max_length L >= 1 the
    chunker returns chunks such that (a) T is the chunks in order, each
    followed by a gap of whitespace only (the whitespace dropped at the
    split points and behind the text), so that the concatenation of the
    chunks and T are equal once whitespace is taken out of both,
    (b) every chunk is at most L long, and (c) a chunk cut by the loop is
    exactly L long only when the cut was forced (no space among the
    first L characters of the text that was left; the chunk then holds
    no space) and is shorter than L when cut at a space; only the rest
    appended after the loop, which comes last, can be L long without a
    forced cut. *)
Theorem C2_chunker_roundtrip_and_bound (T : str) (L : Z) :
  T <> [] -> (1 <= L)%Z ->
  exists chunks,
    split_text_into_chunks T L = Some chunks /\
    (exists gaps,
        length gaps = length chunks /\
        Forall (fun g => whitespace_only g = true) gaps /\
        T = interleave chunks gaps) /\
    remove_ws (concat chunks) = remove_ws T /\
    Forall (fun c => (len c <= L)%Z) chunks /\
    (exists loop_cuts rest,
        split_text_cuts T L = Some (loop_cuts ++ rest) /\
        chunks = map fst (loop_cuts ++ rest) /\
        Forall (loop_cut_ok L) loop_cuts /\
        (rest = [] \/ exists r, rest = [(r, Rest)] /\ r <> [] /\ (len r <= L)%Z)).
Proof.
  intros HT HL.
  destruct (split_text_into_chunks_spec T HL) as [chunks [Hs [Hg Hb]]].
  exists chunks. split; [exact Hs|].
  destruct (glued_gaps Hg [] eq_refl) as [[_ ->]|[gaps [Hn [Hw He]]]]; [congruence|].
  rewrite app_nil_r in He.
  split; [exists gaps; auto|]. split; [|split; [exact Hb|]].
  - rewrite He. symmetry. now apply remove_ws_interleave.
  - pose proof (split_loop_cuts_erase (S (length T)) L T []) as Her.
    fold (split_text_cuts T L) in Her. simpl map in Her.
    fold (split_text_into_chunks T L) in Her. rewrite Hs in Her.
    destruct (split_text_cuts T L) as [cuts|] eqn:Hc; [|discriminate].
    injection Her as Her.
    destruct (@split_loop_cuts_spec L (S (length T)) HL T [] cuts Hc)
      as [lc [rest [E [Hlc Hrest]]]].
    simpl in E. subst cuts. exists lc, rest. auto.
Qed.

Lemma C2_chunker_roundtrip_and_bound_witness :
  exists chunks,
    split_text_into_chunks (lit "hello  big worldwide  ") 8 = Some chunks /\
    (exists gaps,
        length gaps = length chunks /\
        Forall (fun g => whitespace_only g = true) gaps /\
        lit "hello  big worldwide  " = interleave chunks gaps) /\
    remove_ws (concat chunks) = remove_ws (lit "hello  big worldwide  ") /\
    Forall (fun c => (len c <= 8)%Z) chunks /\
    (exists loop_cuts rest,
        split_text_cuts (lit "hello  big worldwide  ") 8 = Some (loop_cuts ++ rest) /\
        chunks = map fst (loop_cuts ++ rest) /\
        Forall (loop_cut_ok 8) loop_cuts /\
        (rest = [] \/ exists r, rest = [(r, Rest)] /\ r <> [] /\ (len r <= 8)%Z)).
Proof.
  apply (@C2_chunker_roundtrip_and_bound (lit "hello  big worldwide  ") 8).
  - discriminate.
  - lia.
Defined.

(** The branches on that text: one cut at a space, one forced cut, and
    the rest. *)
Example cuts_of_each_kind :
  split_text_cuts (lit "hello  big worldwide  ") 8
  = Some [(lit "hello ", AtSpace); (lit "big", AtSpace);
          (lit "worldwid", Forced); (lit "e", Rest)].
Proof. reflexivity. Qed.

(** A forced cut need not be inside a word longer than max_length: in
    "abcd efgh" with max_length 4 the first four characters hold no
    space, the cut is forced, and no word is longer than 4. *)
Example forced_cut_without_long_word :
  split_text_cuts (lit "abcd efgh") 4
  = Some [(lit "abcd", Forced); (lit "efgh", Rest)] /\
  ~ has_word_longer_than 4 (lit "abcd efgh").
Proof.
  split; [reflexivity|].
  intros [pre [word [post [He [Hw Hlen]]]]].
  pose proof (f_equal (@length char) He) as Hn. rewrite !length_app in Hn.
  unfold len in Hlen. simpl in Hn.
  assert (Hin : In space word).
  { assert (E : nth 4 (pre ++ word ++ post) 0%N = space) by now rewrite <- He.
    rewrite app_nth2 in E by lia. rewrite app_nth1 in E by lia.
    rewrite <- E. apply nth_In. lia. }
  rewrite <- Hw in Hin. unfold remove_ws in Hin. apply filter_In in Hin.
  destruct Hin as [_ Hf]. discriminate.
Qed.

(** ** C3 *)

Lemma strip_whitespace_only (s : str) : whitespace_only s = true -> strip s = [].
Proof.
  intros H. unfold strip.
  assert (lstrip s = []) as ->.
  { induction s as [|c r IH]; simpl in *; [reflexivity|].
    apply andb_prop in H. destruct H as [-> Hr]. auto. }
  reflexivity.
Qed.

(** C3 (as stated) fails for whitespace-only text: the chunker tests the
    text for emptiness, not for blankness, and returns three spaces as
    one chunk. *)
Lemma C3_counterexample :
  whitespace_only (lit "   ") = true /\ (1 <= 10)%Z /\
  split_text_into_chunks (lit "   ") 10 = Some [lit "   "] /\
  split_text_into_chunks (lit "   ") 10 <> Some [].
Proof. repeat split; try reflexivity; try lia; discriminate. Qed.

(** C3, amended -- for every max_length >= 1 the chunker returns zero
    chunks exactly for the empty text; a text of whitespace only never
    reaches the chunker, because [process_file] skips such a document
    right after reading it, without any other effect. *)
Theorem C3_zero_chunks (text : str) (max_length : Z) :
  (1 <= max_length)%Z ->
  (split_text_into_chunks text max_length = Some [] <-> text = []) /\
  (whitespace_only text = true ->
   forall cfg w file,
     doc_content file = Some text ->
     process_file cfg w file = ([Read (doc_path file)], Ended Skipped)).
Proof.
  intros HL. split; [split|].
  - intros H. destruct (split_text_into_chunks_spec text HL) as [chunks [Hs [Hg _]]].
    rewrite H in Hs. injection Hs as <-. now inversion Hg.
  - intros ->. unfold split_text_into_chunks. simpl.
    destruct (Z.gtb_spec (len []) max_length) as [Hgt|_]; [unfold len in Hgt; simpl in Hgt; lia|reflexivity].
  - intros Hw cfg w file Hc.
    unfold process_file, process_file_body. rewrite Hc.
    simpl. rewrite (strip_whitespace_only _ Hw). reflexivity.
Qed.

Lemma C3_zero_chunks_witness :
  (split_text_into_chunks (lit "   ") 2 = Some [] <-> lit "   " = []) /\
  process_file default_config (all_succeed in_index_order)
               (text_file [lit "input"] "blank.txt" "   ")
  = ([Read ([lit "input"] // lit "blank.txt")], Ended Skipped).
Proof.
  destruct (@C3_zero_chunks (lit "   ") 2 ltac:(lia)) as [Hiff Hskip].
  split; [exact Hiff|].
  apply Hskip; reflexivity.
Defined.

(** ** C4 *)

(** C4 (as stated) fails: a short text is returned as it is, not
    stripped. *)
Lemma C4_counterexample :
  (len (lit " a ") <= 5)%Z /\ (1 <= 5)%Z /\ whitespace_only (lit " a ") = false /\
  split_text_into_chunks (lit " a ") 5 = Some [lit " a "] /\
  split_text_into_chunks (lit " a ") 5 <> Some [strip (lit " a ")].
Proof. repeat split; try reflexivity; try lia; discriminate. Qed.

(** C4, amended -- for every non-empty text T and max_length L >= 1 with
    length(T) <= L, the chunker returns exactly the one-element sequence
    [T], the text unchanged (which is [T.strip()] when T has no
    whitespace at either end). *)
Theorem C4_short_text_one_chunk (T : str) (L : Z) :
  (1 <= L)%Z -> (len T <= L)%Z -> T <> [] ->
  split_text_into_chunks T L = Some [T] /\
  (strip T = T -> split_text_into_chunks T L = Some [strip T]).
Proof.
  intros HL Hlen HT.
  assert (split_text_into_chunks T L = Some [T]) as H.
  { unfold split_text_into_chunks. simpl.
    destruct (Z.gtb_spec (len T) L); [lia|].
    destruct T; [congruence|reflexivity]. }
  split; [exact H|]. intros ->. exact H.
Qed.

Lemma C4_short_text_one_chunk_witness :
  split_text_into_chunks (lit "a b") 5 = Some [lit "a b"] /\
  split_text_into_chunks (lit "a b") 5 = Some [strip (lit "a b")].
Proof.
  destruct (@C4_short_text_one_chunk (lit "a b") 5) as [H1 H2].
  - lia.
  - vm_compute. discriminate.
  - discriminate.
  - split; [exact H1|]. apply H2. reflexivity.
Defined.

(** A text made of one space and a word, with no space among the first
    [max_length - 1] characters of the word and more than [max_length]
    characters in all, is cut at 0 first: its first chunk is empty. *)
Lemma leading_space_empty_chunk (word : str) (max_length : Z) :
  (1 <= max_length)%Z ->
  (max_length <= len word)%Z ->
  rindex space (firstn (Z.to_nat max_length - 1) word) = None ->
  exists rest,
    split_text_into_chunks (space :: word) max_length = Some ([] :: rest).
Proof.
  intros HL Hlen Hns. unfold split_text_into_chunks.
  cbn [split_loop]. unfold len in *.
  destruct (Z.gtb_spec (Z.of_nat (length (space :: word))) max_length) as [_|H];
    [|simpl in H; lia].
  assert (Hi : split_index (space :: word) max_length = 0%Z).
  { unfold split_index, rfind, slice_to. rewrite clamp_nonneg by lia.
    replace (Nat.min (Z.to_nat max_length) (length (space :: word)))
      with (S (Z.to_nat max_length - 1)) by (simpl; lia).
    simpl. now rewrite Hns. }
  rewrite Hi.
  destruct (@split_loop_terminates max_length HL (length (space :: word))
                                       (strip (slice_from (space :: word) 0))
                                       ([] ++ [slice_to (space :: word) 0]))
    as [result Hr].
  { apply lstrip_space_head. reflexivity. }
  rewrite Hr. destruct (@split_loop_spec max_length HL _ _ _ _ Hr) as [cs [-> _]].
  exists cs. reflexivity.
Qed.

(** ** C10 *)

(** C10 -- chunks may be empty: there are a text and a max_length >= 1
    for which the chunker returns a sequence that contains the empty
    string.  In " abcdef" with max_length 3 the only space among the
    first three characters is at position 0, so the first cut is at 0. *)
Theorem C10_empty_chunk_possible :
  exists (text : str) (max_length : Z) (chunks : list str),
    (1 <= max_length)%Z /\
    split_index text max_length = 0%Z /\
    split_text_into_chunks text max_length = Some chunks /\
    In [] chunks.
Proof.
  exists (lit " abcdef"), 3%Z, [lit ""; lit "abc"; lit "def"].
  split; [lia|]. split; [reflexivity|]. split; [reflexivity|].
  simpl. auto.
Qed.

(* ================================================================== *)
(** * The Synthesis Client *)
(* ================================================================== *)

Section Retries.

Variable cfg : config.
Variable w : world.
Variable chunk : str.
Variable chunk_index : nat.
Variable file_stem : str.
Variable retries : Z.

Local Abbreviation p := (output_audio_path cfg chunk_index file_stem).
Local Abbreviation d := (TEMP_FOLDER cfg // file_stem).

(** One pass through the body of the [for] loop. *)
Lemma retry_loop_step (attempt remaining : nat) :
  retry_loop cfg w chunk chunk_index file_stem retries attempt (S remaining) =
  let again (t : trace) (e : exn) :=
    if (Z.of_nat attempt <? retries - 1)%Z then
      let (t', r) :=
        retry_loop cfg w chunk chunk_index file_stem retries (S attempt) remaining in
      (t ++ Sleep (2 ^ Z.of_nat attempt) :: t', r)
    else (t, inl e) in
  match synth w chunk_index attempt with
  | Succeeds => ([Mkdir d; SynthCall chunk; OpenWrite p], inr (Some p))
  | CreateRaises e => again [Mkdir d; SynthCall chunk] e
  | WriteRaises e => again [Mkdir d; SynthCall chunk; OpenWrite p] e
  end.
Proof.
  simpl. unfold generate_audio.
  destruct (synth w chunk_index attempt); simpl; try reflexivity;
    destruct (Z.of_nat attempt <? retries - 1)%Z; simpl; try reflexivity;
    destruct (retry_loop cfg w chunk chunk_index file_stem retries (S attempt) remaining);
    reflexivity.
Qed.

Lemma first_success_range (answers : nat -> attempt_outcome) (n : nat) :
  forall from k, first_success answers from n = Some k ->
                 (from <= k < from + n)%nat /\ answers k = Succeeds.
Proof.
  induction n as [|n IH]; intros from k H; simpl in H; [discriminate|].
  destruct (answers from) eqn:Ha.
  - injection H as <-. split; [lia|exact Ha].
  - apply IH in H. split; [lia|tauto].
  - apply IH in H. split; [lia|tauto].
Qed.

Lemma backoff_shift (a n : nat) :
  ((2 ^ Z.of_nat a) :: map (fun x => 2 ^ Z.of_nat x) (seq (S a) n)
   = map (fun x => 2 ^ Z.of_nat x) (seq a (S n)))%Z.
Proof. reflexivity. Qed.

(** The loop from attempt [a] on, with [m] attempts left of [a + m]. *)
Lemma retry_loop_spec (m : nat) :
  forall a,
    (m = 0%nat \/ retries = Z.of_nat (a + m)) ->
    let run := retry_loop cfg w chunk chunk_index file_stem retries a m in
    Forall (fun q => q = p) (writes (fst run)) /\
    match first_success (synth w chunk_index) a m with
    | Some k =>
        snd run = inr (Some p) /\
        length (synth_calls (fst run)) = S (k - a) /\
        sleeps (fst run) = map (fun x => 2 ^ Z.of_nat x)%Z (seq a (k - a)) /\
        In p (writes (fst run))
    | None =>
        length (synth_calls (fst run)) = m /\
        sleeps (fst run) = map (fun x => 2 ^ Z.of_nat x)%Z (seq a (m - 1)) /\
        match m with
        | O => snd run = inr None
        | S m' => exists e, error_of (synth w chunk_index (a + m')) = Some e /\
                            snd run = inl e
        end
    end.
Proof.
  induction m as [|m IH]; intros a Hr run.
  - subst run. simpl. repeat split; constructor.
  - destruct Hr as [Hr|Hr]; [discriminate|].
    subst run. rewrite retry_loop_step. cbv zeta. simpl first_success.
    assert (Hagain : forall t e,
               error_of (synth w chunk_index a) = Some e ->
               length (synth_calls t) = 1%nat -> sleeps t = [] ->
               Forall (fun q => q = p) (writes t) ->
               let run :=
                 if (Z.of_nat a <? retries - 1)%Z then
                   let (t', r) :=
                     retry_loop cfg w chunk chunk_index file_stem retries (S a) m in
                   (t ++ Sleep (2 ^ Z.of_nat a) :: t', r)
                 else (t, inl e) in
               Forall (fun q => q = p) (writes (fst run)) /\
               match first_success (synth w chunk_index) (S a) m with
               | Some k =>
                   snd run = inr (Some p) /\
                   length (synth_calls (fst run)) = S (k - a) /\
                   sleeps (fst run) = map (fun x => 2 ^ Z.of_nat x)%Z (seq a (k - a)) /\
                   In p (writes (fst run))
               | None =>
                   length (synth_calls (fst run)) = S m /\
                   sleeps (fst run) = map (fun x => 2 ^ Z.of_nat x)%Z (seq a (S m - 1)) /\
                   exists e', error_of (synth w chunk_index (a + m)) = Some e' /\
                              snd run = inl e'
               end).
    { intros t e He Hc Hs Hw.
      destruct m as [|m'].
      - (* the last attempt *)
        destruct (Z.ltb_spec (Z.of_nat a) (retries - 1)) as [Hlt|_]; [lia|].
        simpl. split; [exact Hw|]. split; [exact Hc|]. split; [exact Hs|].
        exists e. rewrite Nat.add_0_r. auto.
      - destruct (Z.ltb_spec (Z.of_nat a) (retries - 1)) as [_|Hge]; [|lia].
        specialize (IH (S a) ltac:(right; lia)). cbv zeta in IH.
        destruct (retry_loop cfg w chunk chunk_index file_stem retries (S a) (S m'))
          as [t' r] eqn:Hrun.
        simpl fst in *. simpl snd in *.
        destruct IH as [HF IH].
        assert (Hwr : writes (t ++ Sleep (2 ^ Z.of_nat a) :: t') = writes t ++ writes t').
        { unfold writes. rewrite flat_map_app. reflexivity. }
        assert (Hsl : sleeps (t ++ Sleep (2 ^ Z.of_nat a) :: t')
                      = (2 ^ Z.of_nat a)%Z :: sleeps t').
        { unfold sleeps in *. rewrite flat_map_app, Hs. reflexivity. }
        assert (Hsc : length (synth_calls (t ++ Sleep (2 ^ Z.of_nat a) :: t'))
                      = S (length (synth_calls t'))).
        { unfold synth_calls in *. rewrite flat_map_app, length_app, Hc. reflexivity. }
        rewrite Hwr, Hsl, Hsc.
        split; [apply Forall_app; split; assumption|].
        destruct (first_success (synth w chunk_index) (S a) (S m')) as [k|] eqn:Hfs.
        + destruct (first_success_range _ _ _ Hfs) as [Hk _].
          destruct IH as [Hres [Hcalls [Hsleeps Hin]]].
          split; [exact Hres|]. split; [lia|]. split.
          * rewrite Hsleeps. replace (k - a)%nat with (S (k - S a)) by lia.
            apply backoff_shift.
          * apply in_or_app. now right.
        + destruct IH as [Hcalls [Hsleeps [e' [He' Hres]]]].
          split; [lia|]. split.
          * rewrite Hsleeps. replace (S (S m') - 1)%nat with (S (S m' - 1)) by lia.
            apply backoff_shift.
          * exists e'. replace (a + S m')%nat with (S a + m')%nat by lia. auto. }
    destruct (synth w chunk_index a) eqn:Ha.
    + simpl. rewrite Nat.sub_diag. simpl.
      repeat split; auto.
    + apply Hagain; try reflexivity. constructor.
    + apply Hagain; try reflexivity. simpl. repeat constructor.
Qed.

End Retries.

Lemma nodup_constant (q : Path) (l : list Path) :
  Forall (fun x => x = q) l -> In q l -> nodup Path_eq_dec l = [q].
Proof.
  induction l as [|x r IH]; intros HF Hin; [contradiction|].
  inversion HF as [|? ? Hx Hr]; subst. simpl.
  destruct (in_dec Path_eq_dec q r) as [Hi|Hn]; [auto|].
  destruct r as [|y r']; [reflexivity|].
  inversion Hr; subst. exfalso. apply Hn. now left.
Qed.

(** ** C5 *)

(** C5 -- retry policy: [generate_audio_with_retries] with N = [retries]
    (3 where [process_file] calls it) makes at most N synthesis attempts.
    If attempt k (counted from 0) is the first that succeeds, it returns
    the one artifact path, has made exactly k+1 attempts and none after
    the success, has slept 2^0, ..., 2^(k-1) between them, and every
    file it wrote is that one artifact.  If no attempt succeeds, it
    makes exactly N attempts, sleeps 2^0, ..., 2^(N-2) after the failed
    attempts that are not the last, and raises the error of the last
    attempt. *)
Theorem C5_retry_policy (cfg : config) (w : world) (chunk : str)
        (chunk_index : nat) (file_stem : str) (retries : Z) :
  let n := Z.to_nat retries in
  let p := output_audio_path cfg chunk_index file_stem in
  let run := generate_audio_with_retries cfg w chunk chunk_index file_stem retries in
  default_retries = 3%Z /\
  (length (synth_calls (fst run)) <= n)%nat /\
  match first_success (synth w chunk_index) 0 n with
  | Some k =>
      snd run = inr (Some p) /\
      length (synth_calls (fst run)) = S k /\
      sleeps (fst run) = backoff k /\
      nodup Path_eq_dec (writes (fst run)) = [p]
  | None =>
      length (synth_calls (fst run)) = n /\
      sleeps (fst run) = backoff (n - 1) /\
      match n with
      | O => snd run = inr None
      | S last => exists e, error_of (synth w chunk_index last) = Some e /\
                            snd run = inl e
      end
  end.
Proof.
  intros n p run. split; [reflexivity|].
  assert (Hn : n = 0%nat \/ retries = Z.of_nat (0 + n)).
  { subst n. destruct (Z.le_gt_cases retries 0) as [H|H].
    - left. lia.
    - right. lia. }
  pose proof (@retry_loop_spec cfg w chunk chunk_index file_stem retries n 0 Hn) as H.
  cbv zeta in H.
  change (retry_loop cfg w chunk chunk_index file_stem retries 0 n) with run in H.
  destruct H as [HF H].
  destruct (first_success (synth w chunk_index) 0 n) as [k|] eqn:Hfs.
  - destruct (first_success_range _ _ _ Hfs) as [Hk _].
    destruct H as [Hres [Hcalls [Hsl Hin]]]. rewrite Nat.sub_0_r in Hcalls, Hsl.
    split; [lia|]. repeat split; auto.
    now apply nodup_constant.
  - destruct H as [Hcalls [Hsl Hres]]. split; [lia|]. auto.
Qed.

(** The spec's scenario: two failures, then a success. *)
Example retry_fails_twice_then_succeeds :
  let run := generate_audio_with_retries default_config (fails_twice in_index_order)
                                         (lit "hello") 0 (lit "doc") 3 in
  snd run = inr (Some (output_audio_path default_config 0 (lit "doc"))) /\
  length (synth_calls (fst run)) = 3%nat /\
  sleeps (fst run) = [1; 2]%Z /\
  writes (fst run) = [output_audio_path default_config 0 (lit "doc")].
Proof. vm_compute. repeat split. Qed.

(** Three failures: the third error reaches the caller, after waits of 1
    and 2. *)
Example retry_exhausted :
  let run := generate_audio_with_retries default_config (chunk_always_fails 0 in_index_order)
                                         (lit "hello") 0 (lit "doc") 3 in
  snd run = inl (IOError 2) /\
  length (synth_calls (fst run)) = 3%nat /\
  sleeps (fst run) = [1; 2]%Z.
Proof. vm_compute. repeat split. Qed.

(* ================================================================== *)
(** * The Run Coordinator *)
(* ================================================================== *)

Lemma for_each_future_result {A} (futures : list (M A)) :
  for_each future_result futures = ([], results futures).
Proof.
  induction futures as [|[t [e|a]] rest IH]; simpl; try reflexivity.
  rewrite IH. unfold bind, future_result. simpl.
  destruct (results rest); reflexivity.
Qed.

Section RunCoordinator.

Variable cfg : config.
Variable w : world.
Variable file : document.

Local Abbreviation src := (doc_path file).
Local Abbreviation stem := (path_stem (doc_path file)).

(** [process_file] on a document that can be read, is not blank and
    whose chunking ends, case by case. *)
Lemma process_file_unfold (text : str) (chunks : list str) :
  doc_content file = Some text ->
  truthy (strip text) = true ->
  split_text_into_chunks text (MAX_CHUNK_SIZE cfg) = Some chunks ->
  process_file cfg w file =
  let pool := pool_events cfg w stem chunks in
  match results (as_completed w (chunk_futures cfg w stem chunks)) with
  | inl e => (Read src :: pool, Failed e)
  | inr audio_files =>
      match sort_by sort_key audio_files with
      | None => (Read src :: pool, Failed (key_error audio_files))
      | Some sorted =>
          let asm := assembly_events cfg stem (paths_of sorted) in
          if ffmpeg_ok w
          then (Read src :: pool ++ asm ++ [Move src (processed_file_path cfg stem)],
                Ended Completed)
          else (Read src :: pool ++ asm, Failed CalledProcessError)
      end
  end.
Proof.
  intros Hc Ht Hs. unfold process_file, process_file_body.
  rewrite Hc. simpl. rewrite Ht, Hs. simpl.
  fold (chunk_futures cfg w stem chunks).
  rewrite for_each_future_result. unfold run_pool. simpl.
  fold (pool_events cfg w stem chunks).
  destruct (results (as_completed w (chunk_futures cfg w stem chunks))) as [e|audio_files];
    simpl; [now rewrite app_nil_r|].
  destruct (sort_by sort_key audio_files) as [sorted|]; simpl; [|now rewrite app_nil_r].
  unfold combine_audio_files, try_finally, bind, emit, ret, raise. simpl.
  fold (paths_of sorted). unfold resolve. rewrite map_id.
  destruct (ffmpeg_ok w); simpl; reflexivity.
Qed.

End RunCoordinator.

Section PoolFacts.

Variable cfg : config.
Variable w : world.

(** A chunk task only makes the document's working directory, calls
    the service, sleeps and writes chunk files of its document. *)
Lemma retry_loop_events (chunk : str) (i : nat) (stem : str) (retries : Z) (m : nat) :
  forall a, Forall (task_event cfg stem)
                   (fst (retry_loop cfg w chunk i stem retries a m)).
Proof.
  induction m as [|m IH]; intros a; [constructor|].
  rewrite retry_loop_step. cbv zeta.
  assert (Hw : task_event cfg stem (OpenWrite (output_audio_path cfg i stem))).
  { simpl. eauto. }
  assert (Hm : task_event cfg stem (Mkdir (TEMP_FOLDER cfg // stem))) by reflexivity.
  specialize (IH (S a)).
  destruct (synth w i a); simpl.
  - repeat constructor; assumption.
  - destruct (Z.of_nat a <? retries - 1)%Z.
    + destruct (retry_loop cfg w chunk i stem retries (S a) m) as [t r]. simpl in *.
      repeat constructor; assumption.
    + simpl. repeat constructor; assumption.
  - destruct (Z.of_nat a <? retries - 1)%Z.
    + destruct (retry_loop cfg w chunk i stem retries (S a) m) as [t r]. simpl in *.
      repeat constructor; assumption.
    + simpl. repeat constructor; assumption.
Qed.

Lemma pool_events_tasks (stem : str) (chunks : list str) :
  Forall (task_event cfg stem) (pool_events cfg w stem chunks).
Proof.
  unfold pool_events, chunk_futures. apply Forall_concat.
  apply Forall_map. apply Forall_map. apply Forall_forall.
  intros [i chunk] _. simpl. apply retry_loop_events.
Qed.

Lemma task_event_not_assembly (stem : str) (t : trace) :
  Forall (task_event cfg stem) t -> assembly_ran t = false.
Proof.
  induction 1 as [|ev t Hev _ IH]; [reflexivity|].
  unfold assembly_ran in *. simpl. rewrite IH.
  destruct ev; simpl in *; try reflexivity; contradiction.
Qed.

Lemma task_event_not_move (stem : str) (t : trace) :
  Forall (task_event cfg stem) t -> forall a b, ~ In (Move a b) t.
Proof.
  intros H a b Hin. rewrite Forall_forall in H. apply (H _ Hin).
Qed.

Lemma combine_seq_nth {A} (l : list A) :
  forall i a x, nth_error l i = Some x ->
                In ((a + i)%nat, x) (combine (seq a (length l)) l).
Proof.
  induction l as [|y l IH]; intros [|i] a x H; simpl in *; try discriminate.
  - injection H as ->. left. f_equal. lia.
  - right. replace (a + S i)%nat with (S a + i)%nat by lia. now apply IH.
Qed.

Lemma enumerate_nth {A} (l : list A) (i : nat) (x : A) :
  nth_error l i = Some x -> In (i, x) (enumerate l).
Proof. intros H. apply (combine_seq_nth l i 0 H). Qed.

(** The future of every chunk index is among the submitted ones. *)
Lemma chunk_future_submitted (stem : str) (chunks : list str) (i : nat) :
  (i < length chunks)%nat ->
  exists chunk,
    In (i, generate_audio_with_retries cfg w chunk i stem default_retries)
       (chunk_futures cfg w stem chunks).
Proof.
  intros Hi. destruct (nth_error chunks i) as [chunk|] eqn:Hn.
  - exists chunk. unfold chunk_futures.
    apply (in_map (fun '(i, chunk) =>
                     (i, generate_audio_with_retries cfg w chunk i stem default_retries))
                  _ _ (enumerate_nth _ _ Hn)).
  - apply nth_error_None in Hn. lia.
Qed.

Lemma first_success_none (answers : nat -> attempt_outcome) (n : nat) :
  forall from,
    (forall k, (from <= k < from + n)%nat -> answers k <> Succeeds) ->
    first_success answers from n = None.
Proof.
  induction n as [|n IH]; intros from H; simpl; [reflexivity|].
  destruct (answers from) eqn:Ha.
  - exfalso. apply (H from); [lia|exact Ha].
  - apply IH. intros k Hk. apply H. lia.
  - apply IH. intros k Hk. apply H. lia.
Qed.

(** A chunk none of whose three attempts succeeds ends in an error. *)
Lemma task_fails (chunk : str) (i : nat) (stem : str) :
  (forall attempt, (attempt < 3)%nat -> synth w i attempt <> Succeeds) ->
  exists e,
    snd (generate_audio_with_retries cfg w chunk i stem default_retries) = inl e.
Proof.
  intros Hf.
  pose proof (@retry_loop_spec cfg w chunk i stem default_retries 3 0
                               ltac:(right; reflexivity)) as H.
  cbv zeta in H. destruct H as [_ H].
  rewrite first_success_none in H by (intros k Hk; apply Hf; lia).
  destruct H as [_ [_ [e [_ He]]]]. exists e. exact He.
Qed.

End PoolFacts.

Section SortFacts.

Variable A : Type.

Lemma insert_by_key_perm (k : Z) (x : A) (l : list (Z * A)) :
  Permutation (insert_by_key k x l) ((k, x) :: l).
Proof.
  induction l as [|[k' y] l IH]; simpl; [reflexivity|].
  destruct (k <=? k')%Z; [reflexivity|].
  rewrite IH. apply perm_swap.
Qed.

(** Sorting only rearranges. *)
Lemma sort_keyed_perm (l : list (Z * A)) : Permutation (sort_keyed l) l.
Proof.
  induction l as [|[k x] l IH]; simpl; [reflexivity|].
  rewrite insert_by_key_perm. now constructor.
Qed.

End SortFacts.

(** [as_completed] hands back every submitted future. *)
Lemma as_completed_complete {A} (w : world) (futures : list (nat * M A)) (f : nat * M A) :
  In f futures -> In (snd f) (as_completed w futures).
Proof.
  intros Hin. unfold as_completed.
  apply (in_map snd _ (finish_time w (fst f), snd f)).
  apply (Permutation_in _ (Permutation_sym (sort_keyed_perm _))).
  apply (in_map (fun f => (finish_time w (fst f), snd f)) _ _ Hin).
Qed.

(** One failed future makes the collection of the results raise. *)
Lemma results_raise {A} (futures : list (M A)) (f : M A) (e : exn) :
  In f futures -> snd f = inl e -> exists e', results futures = inl e'.
Proof.
  induction futures as [|[t [e0|a]] rest IH]; intros Hin He; simpl.
  - contradiction.
  - eauto.
  - destruct Hin as [<-|Hin]; [discriminate|].
    destruct (IH Hin He) as [e' ->]. eauto.
Qed.

Lemma inside_join (d : Path) (x : str) (r : Path) : inside d (d ++ x :: r) = true.
Proof.
  induction d as [|a d IH]; simpl; [reflexivity|].
  destruct (list_eq_dec N.eq_dec a a); [exact IH|congruence].
Qed.

(** Chunk files lie in the working directory of their own document, and
    two documents with different stems never share one. *)
Lemma output_audio_path_isolated (cfg : config) (i j : nat) (stem stem' : str) :
  inside (TEMP_FOLDER cfg // stem) (output_audio_path cfg i stem) = true /\
  (stem <> stem' -> output_audio_path cfg i stem <> output_audio_path cfg j stem').
Proof.
  unfold output_audio_path, joinpath. split.
  - apply inside_join.
  - intros Hne Heq. rewrite <- !app_assoc in Heq.
    apply app_inv_head in Heq. simpl in Heq. congruence.
Qed.

(** ** C7 *)

(** C7 -- assembly fails closed on gaps: when a document has N chunks and
    for some index below N none of the three synthesis attempts
    succeeds, then, in whatever order the chunk tasks complete,
    [process_file] writes no manifest and does not run ffmpeg (no final
    artifact), moves nothing, and does not end as completed. *)
Theorem C7_assembly_fails_closed (cfg : config) (w : world) (file : document)
        (text : str) (chunks : list str) (i : nat) :
  doc_content file = Some text ->
  split_text_into_chunks text (MAX_CHUNK_SIZE cfg) = Some chunks ->
  (i < length chunks)%nat ->
  (forall attempt, (attempt < 3)%nat -> synth w i attempt <> Succeeds) ->
  let run := process_file cfg w file in
  assembly_ran (fst run) = false /\
  (forall a b, ~ In (Move a b) (fst run)) /\
  snd run <> Ended Completed.
Proof.
  intros Hc Hs Hi Hf run. subst run.
  destruct (truthy (strip text)) eqn:Ht.
  - rewrite (process_file_unfold cfg w file Hc Ht Hs). cbv zeta.
    set (stem := path_stem (doc_path file)).
    destruct (@chunk_future_submitted cfg w stem chunks i Hi) as [chunk Hin].
    destruct (@task_fails cfg w chunk i stem Hf) as [e He].
    apply (as_completed_complete w) in Hin.
    destruct (results_raise _ _ Hin He) as [e' ->]. simpl.
    pose proof (pool_events_tasks cfg w stem chunks) as Hp.
    split; [|split].
    + apply (task_event_not_assembly Hp).
    + intros a b [H|H]; [discriminate|]. exact (task_event_not_move Hp _ _ H).
    + discriminate.
  - unfold process_file, process_file_body. rewrite Hc. simpl. rewrite Ht. simpl.
    split; [reflexivity|]. split; [|discriminate].
    intros a b [H|[]]. discriminate.
Qed.

Lemma C7_assembly_fails_closed_witness :
  let run := process_file (Build_config [lit "temp"] [lit "output"] 4)
                          (chunk_always_fails 1 order_2_0_1)
                          (text_file [lit "input"] "doc.txt" "aaa bbb ccc") in
  assembly_ran (fst run) = false /\
  (forall a b, ~ In (Move a b) (fst run)) /\
  snd run <> Ended Completed.
Proof.
  apply (@C7_assembly_fails_closed
           (Build_config [lit "temp"] [lit "output"] 4)
           (chunk_always_fails 1 order_2_0_1)
           (text_file [lit "input"] "doc.txt" "aaa bbb ccc")
           (lit "aaa bbb ccc") [lit "aaa"; lit "bbb"; lit "ccc"] 1).
  - reflexivity.
  - reflexivity.
  - simpl. lia.
  - intros attempt _. simpl. discriminate.
Defined.

(** ** C9 *)






(** ** C1 *)

Lemma inside_sibling (d : Path) (x y : str) : inside (d ++ [x]) (d ++ [y]) = false.
Proof.
  induction d as [|a d IH]; simpl.
  - destruct (list_eq_dec N.eq_dec x y); reflexivity.
  - destruct (list_eq_dec N.eq_dec a a); [exact IH|reflexivity].
Qed.

(** Whenever the Assembler runs for a document, its manifest is written
    to the one path [concat_file], whatever the document. *)
Lemma manifest_written (cfg : config) (w : world) (file : document) :
  assembly_ran (fst (process_file cfg w file)) = true ->
  In (concat_file cfg) (intermediate_files (fst (process_file cfg w file))).
Proof.
  destruct (doc_content file) as [text|] eqn:Hc.
  2:{ unfold process_file, process_file_body. rewrite Hc. simpl. discriminate. }
  destruct (truthy (strip text)) eqn:Ht.
  2:{ unfold process_file, process_file_body. rewrite Hc. simpl. rewrite Ht. simpl.
      discriminate. }
  destruct (split_text_into_chunks text (MAX_CHUNK_SIZE cfg)) as [chunks|] eqn:Hs.
  2:{ unfold process_file, process_file_body. rewrite Hc. simpl. rewrite Ht, Hs. simpl.
      discriminate. }
  rewrite (process_file_unfold cfg w file Hc Ht Hs). cbv zeta.
  set (stem := path_stem (doc_path file)).
  pose proof (task_event_not_assembly (pool_events_tasks cfg w stem chunks)) as Hp.
  set (pool := pool_events cfg w stem chunks) in *.
  assert (Hfail : assembly_ran (Read (doc_path file) :: pool) = true ->
                  In (concat_file cfg) (intermediate_files (Read (doc_path file) :: pool))).
  { unfold assembly_ran in *. simpl. rewrite Hp. discriminate. }
  assert (Hasm : forall files rest,
             In (concat_file cfg)
                (intermediate_files
                   (Read (doc_path file) :: pool ++ assembly_events cfg stem files ++ rest))).
  { intros files rest. unfold intermediate_files. simpl.
    rewrite flat_map_app. apply in_or_app. right. simpl. now left. }
  destruct (results (as_completed w (chunk_futures cfg w stem chunks))) as [e|audio_files];
    [exact Hfail|].
  destruct (sort_by sort_key audio_files) as [sorted|]; [|exact Hfail].
  destruct (ffmpeg_ok w); cbn [fst snd]; intros _.
  - apply Hasm.
  - rewrite <- (app_nil_r (assembly_events cfg stem (paths_of sorted))). apply Hasm.
Qed.

(** C1 -- what the code does instead: any two documents of a batch whose
    processing reaches the Assembler both write their manifest to the
    same path, TEMP_FOLDER/concat_list.txt, which lies in neither
    document's own subdirectory of the working area.  (Chunk audio files
    are isolated: see [output_audio_path_isolated].) *)
Theorem C1_manifest_shared_between_documents
        (cfg : config) (w1 w2 : world) (file1 file2 : document) :
  assembly_ran (fst (process_file cfg w1 file1)) = true ->
  assembly_ran (fst (process_file cfg w2 file2)) = true ->
  In (concat_file cfg) (intermediate_files (fst (process_file cfg w1 file1))) /\
  In (concat_file cfg) (intermediate_files (fst (process_file cfg w2 file2))) /\
  inside (TEMP_FOLDER cfg // path_stem (doc_path file1)) (concat_file cfg) = false /\
  inside (TEMP_FOLDER cfg // path_stem (doc_path file2)) (concat_file cfg) = false.
Proof.
  intros H1 H2. repeat split.
  - now apply manifest_written.
  - now apply manifest_written.
  - apply inside_sibling.
  - apply inside_sibling.
Qed.

Lemma C1_manifest_shared_between_documents_witness :
  let a := text_file [lit "input"] "a.txt" "hello" in
  let b := text_file [lit "input"] "b.txt" "world" in
  let run_a := process_file default_config (all_succeed in_index_order) a in
  let run_b := process_file default_config (all_succeed in_index_order) b in
  In [lit "temp"; lit "concat_list.txt"] (intermediate_files (fst run_a)) /\
  In [lit "temp"; lit "concat_list.txt"] (intermediate_files (fst run_b)) /\
  inside [lit "temp"; lit "a"] [lit "temp"; lit "concat_list.txt"] = false /\
  inside [lit "temp"; lit "b"] [lit "temp"; lit "concat_list.txt"] = false.
Proof.
  apply (@C1_manifest_shared_between_documents
           default_config (all_succeed in_index_order) (all_succeed in_index_order)
           (text_file [lit "input"] "a.txt" "hello")
           (text_file [lit "input"] "b.txt" "world")); reflexivity.
Defined.

(* ================================================================== *)
(** * The sort key of the Assembler *)
(* ================================================================== *)

Section Numerals.

Lemma numeral_digits (d : Decimal.uint) : Forall is_digit (numeral d).
Proof.
  induction d; simpl; constructor; try assumption; unfold is_digit; simpl; lia.
Qed.

Lemma parse_digits_cons (k : N) (r : str) (acc : Z) (after_digit : bool) :
  (k < 10)%N ->
  parse_digits ((48 + k)%N :: r) acc after_digit
  = parse_digits r (10 * acc + Z.of_N k) true.
Proof.
  intros Hk. cbn [parse_digits].
  destruct (N.eqb_spec (48 + k) 95); [lia|].
  unfold digit_value.
  destruct (N.leb_spec 48 (48 + k)); [|lia].
  destruct (N.leb_spec (48 + k) 57); [|lia].
  cbn [andb]. do 3 f_equal. lia.
Qed.

Ltac numeral_head :=
  match goal with
  | |- context [numeral (Decimal.D0 ?d)] =>
      change (numeral (Decimal.D0 d)) with ((48 + 0)%N :: numeral d)
  | |- context [numeral (Decimal.D1 ?d)] =>
      change (numeral (Decimal.D1 d)) with ((48 + 1)%N :: numeral d)
  | |- context [numeral (Decimal.D2 ?d)] =>
      change (numeral (Decimal.D2 d)) with ((48 + 2)%N :: numeral d)
  | |- context [numeral (Decimal.D3 ?d)] =>
      change (numeral (Decimal.D3 d)) with ((48 + 3)%N :: numeral d)
  | |- context [numeral (Decimal.D4 ?d)] =>
      change (numeral (Decimal.D4 d)) with ((48 + 4)%N :: numeral d)
  | |- context [numeral (Decimal.D5 ?d)] =>
      change (numeral (Decimal.D5 d)) with ((48 + 5)%N :: numeral d)
  | |- context [numeral (Decimal.D6 ?d)] =>
      change (numeral (Decimal.D6 d)) with ((48 + 6)%N :: numeral d)
  | |- context [numeral (Decimal.D7 ?d)] =>
      change (numeral (Decimal.D7 d)) with ((48 + 7)%N :: numeral d)
  | |- context [numeral (Decimal.D8 ?d)] =>
      change (numeral (Decimal.D8 d)) with ((48 + 8)%N :: numeral d)
  | |- context [numeral (Decimal.D9 ?d)] =>
      change (numeral (Decimal.D9 d)) with ((48 + 9)%N :: numeral d)
  end;
  rewrite parse_digits_cons by lia.

(** Reading the digits of a numeral continues the positive number read
    so far the way [Pos.of_uint_acc] does. *)
Lemma parse_digits_acc (d : Decimal.uint) :
  forall acc : positive,
    parse_digits (numeral d) (Z.pos acc) true = Some (Z.pos (Pos.of_uint_acc d acc)).
Proof.
  induction d; intros acc; [reflexivity|..];
    numeral_head; cbn [Pos.of_uint_acc]; rewrite <- IHd; f_equal; lia.
Qed.

Lemma parse_digits_numeral (d : Decimal.uint) :
  forall after_digit,
    d <> Decimal.Nil \/ after_digit = true ->
    parse_digits (numeral d) 0 after_digit = Some (Z.of_N (Pos.of_uint d)).
Proof.
  induction d; intros b Hb.
  1:{ destruct Hb as [Hb| ->]; [congruence|reflexivity]. }
  1:{ numeral_head. cbn [Pos.of_uint]. apply IHd. now right. }
  all: numeral_head; cbn [Pos.of_uint Z.of_N]; rewrite <- parse_digits_acc; f_equal.
Qed.

Lemma lstrip_no_space (s : str) : Forall (fun c => isspace c = false) s -> lstrip s = s.
Proof. intros H. destruct H as [|c r Hc _]; simpl; [reflexivity|]. now rewrite Hc. Qed.

Lemma strip_no_space (s : str) : Forall (fun c => isspace c = false) s -> strip s = s.
Proof.
  intros H. unfold strip, rstrip. rewrite (lstrip_no_space H).
  rewrite lstrip_no_space; [apply rev_involutive|].
  apply Forall_forall. intros c Hc. apply in_rev in Hc.
  rewrite Forall_forall in H. auto.
Qed.

Lemma digit_not_space (c : char) : is_digit c -> isspace c = false.
Proof.
  unfold is_digit, isspace. intros [H1 H2].
  repeat match goal with
         | |- context [(?a <=? ?b)%N] => destruct (N.leb_spec a b)
         | |- context [(?a =? ?b)%N] => destruct (N.eqb_spec a b)
         end; simpl; try reflexivity; lia.
Qed.

(** The numeral of a positive [int] is made of digits, and [int] reads
    it back. *)
Lemma str_of_int_positive (n : Z) :
  (0 < n)%Z ->
  Forall (fun c => (48 <= c <= 57)%N) (str_of_int n) /\
  int (str_of_int n) = Some n /\
  str_of_int n <> [].
Proof.
  intros Hn. destruct n as [|q|q]; try lia.
  unfold str_of_int. simpl Z.to_int. simpl NilEmpty.string_of_int.
  change (lit (NilEmpty.string_of_uint (Pos.to_uint q))) with (numeral (Pos.to_uint q)).
  pose proof (numeral_digits (Pos.to_uint q)) as Hd.
  assert (Hne : Pos.to_uint q <> Decimal.Nil).
  { intros E. pose proof (DecimalPos.Unsigned.of_to q) as H. rewrite E in H. discriminate. }
  assert (Hnil : numeral (Pos.to_uint q) <> []).
  { unfold numeral, lit. destruct (Pos.to_uint q) eqn:E; simpl; congruence. }
  split; [exact Hd|]. split; [|exact Hnil].
  unfold int. rewrite strip_no_space.
  2:{ eapply Forall_impl; [|exact Hd]. intros c. apply digit_not_space. }
  destruct (numeral (Pos.to_uint q)) as [|c r] eqn:Hnum; [congruence|].
  inversion Hd as [|? ? Hc _]; subst. unfold is_digit in Hc.
  destruct (N.eqb_spec c 45); [lia|]. destruct (N.eqb_spec c 43); [lia|].
  rewrite <- Hnum, parse_digits_numeral by (now left).
  now rewrite DecimalPos.Unsigned.of_to.
Qed.

End Numerals.

Section SortKey.

Local Abbreviation sep := (lit "_part_").

Lemma startswith_app (p x : str) : startswith p (p ++ x) = true.
Proof.
  induction p as [|a p IH]; simpl; [reflexivity|]. now rewrite N.eqb_refl.
Qed.

Lemma endswith_unfinished (stem : str) :
  endswith (lit "_part") stem = false -> unfinished stem.
Proof.
  intros H pre ->. unfold endswith in H.
  rewrite rev_app_distr, startswith_app in H. discriminate.
Qed.

Lemma unfinished_tail (c : char) (u : str) : unfinished (c :: u) -> unfinished u.
Proof. intros H pre ->. apply (H (c :: pre)). reflexivity. Qed.

Lemma split_go_nonempty (s : str) :
  forall skip cur, split_go sep s skip cur <> [].
Proof.
  induction s as [|c r IH]; intros skip cur; cbn [split_go]; [discriminate|].
  destruct skip; [|apply IH].
  destruct (startswith sep (c :: r)); [discriminate|apply IH].
Qed.

Lemma last_cons_nonempty (x : str) (l : list str) :
  l <> [] -> last (x :: l) [] = last l [].
Proof. destruct l; [congruence|reflexivity]. Qed.

Lemma startswith_prefix (p s : str) :
  startswith p s = true -> exists rest, s = p ++ rest.
Proof.
  revert s. induction p as [|a p IH]; intros s H; [exists s; reflexivity|].
  destruct s as [|b s]; [discriminate|]. simpl in H.
  apply andb_prop in H. destruct H as [Hab Hps].
  apply N.eqb_eq in Hab. subst b.
  destruct (IH s Hps) as [rest ->]. exists rest. reflexivity.
Qed.

(** A run of digits holds no separator: it is one piece. *)
Lemma split_go_digits (ds : str) :
  Forall is_digit ds -> forall cur, split_go sep ds 0 cur = [rev cur ++ ds].
Proof.
  induction 1 as [|c r Hc _ IH]; intros cur; [simpl; now rewrite app_nil_r|].
  unfold is_digit in Hc. cbn [split_go].
  destruct (startswith sep (c :: r)) eqn:Hm.
  - apply startswith_prefix in Hm. destruct Hm as [rest Hm].
    unfold lit in Hm. simpl in Hm. injection Hm as -> _. lia.
  - rewrite IH. simpl. now rewrite <- app_assoc.
Qed.

(** At the separator in front of the digits. *)
Lemma split_go_at_sep (ds cur : str) :
  split_go sep (sep ++ ds) 0 cur = rev cur :: split_go sep ds 0 [].
Proof. reflexivity. Qed.

(** Splitting [u ++ "_part_" ++ digits], wherever in [u] the scan stands
    and whatever it has been passing over inside [u]: the last piece is
    the digits, provided [u] does not end with "_part". *)
Lemma split_go_last (ds : str) :
  Forall is_digit ds ->
  forall u skip cur,
    unfinished u -> (skip <= length u)%nat ->
    last (split_go sep (u ++ sep ++ ds) skip cur) [] = ds.
Proof.
  intros Hds. induction u as [|c u IH]; intros skip cur Hu Hskip.
  - assert (skip = 0%nat) as -> by (simpl in Hskip; lia).
    cbn [app]. rewrite split_go_at_sep, split_go_digits by assumption.
    reflexivity.
  - destruct skip as [|k].
    + cbn [split_go app].
      destruct (startswith sep (c :: u ++ sep ++ ds)) eqn:Hm.
      * rewrite last_cons_nonempty by apply split_go_nonempty.
        apply IH; [exact (unfinished_tail Hu)|].
        apply startswith_prefix in Hm. destruct Hm as [rest Hm].
        destruct u as [|c2 [|c3 [|c4 [|c5 [|c6 u]]]]]; try (simpl; lia); exfalso;
          unfold lit in Hm; simpl in Hm; try discriminate Hm.
        injection Hm as -> -> -> -> -> _. apply (Hu []). reflexivity.
      * apply IH; [exact (unfinished_tail Hu)|lia].
    + cbn [split_go app]. apply IH; [exact (unfinished_tail Hu)|simpl in Hskip; lia].
Qed.

Lemma split_last_piece (stem ds : str) :
  endswith (lit "_part") stem = false ->
  Forall is_digit ds ->
  last_item (split (stem ++ lit "_part_" ++ ds) (lit "_part_")) = ds.
Proof.
  intros He Hds. unfold last_item, split.
  apply (split_go_last Hds); [now apply endswith_unfinished|lia].
Qed.

Lemma rindex_last_occurrence (c : char) (s t : str) :
  rindex c t = None -> rindex c (s ++ c :: t) = Some (length s).
Proof.
  intros Ht. induction s as [|x s IH]; simpl.
  - now rewrite Ht, N.eqb_refl.
  - now rewrite IH.
Qed.

(** The stem of a chunk file is the document stem, the separator and the
    numeral. *)
Lemma path_stem_output_audio_path (cfg : config) (i : nat) (stem : str) :
  path_stem (output_audio_path cfg i stem)
  = stem ++ lit "_part_" ++ str_of_int (Z.of_nat i + 1).
Proof.
  unfold path_stem, path_name, output_audio_path, joinpath.
  rewrite last_last.
  set (s := stem ++ lit "_part_" ++ str_of_int (Z.of_nat i + 1)).
  replace (stem ++ lit "_part_" ++ str_of_int (Z.of_nat i + 1) ++ lit ".mp3")
    with (s ++ 46%N :: lit "mp3") by (subst s; now rewrite <- !app_assoc).
  rewrite rindex_last_occurrence by reflexivity.
  assert (0 < length s)%nat as Hpos.
  { subst s. rewrite !length_app. simpl. lia. }
  rewrite length_app. simpl length.
  destruct (Nat.ltb_spec 0 (length s)); [|lia].
  destruct (Nat.ltb_spec (length s) (length s + 4 - 1)); [|lia].
  simpl andb. rewrite firstn_app, Nat.sub_diag, firstn_all. simpl. apply app_nil_r.
Qed.

(** The sort key of the chunk file of index [i] is [i + 1], for every
    document stem that does not end with "_part". *)
Lemma sort_key_output_audio_path (cfg : config) (i : nat) (stem : str) :
  endswith (lit "_part") stem = false ->
  sort_key (Some (output_audio_path cfg i stem)) = Some (Z.of_nat i + 1)%Z.
Proof.
  intros He. unfold sort_key. rewrite path_stem_output_audio_path.
  destruct (@str_of_int_positive (Z.of_nat i + 1) ltac:(lia)) as [Hd [Hi _]].
  now rewrite split_last_piece.
Qed.

End SortKey.

Section SortedManifest.

Variable A : Type.

Lemma insert_by_key_sorted (k : Z) (x : A) (l : list (Z * A)) :
  StronglySorted key_le l -> StronglySorted key_le (insert_by_key k x l).
Proof.
  induction 1 as [|[k' y] l Hs IH Hall]; simpl.
  - repeat constructor.
  - destruct (Z.leb_spec k k') as [Hle|Hgt].
    + constructor; [now constructor|]. constructor; [exact Hle|].
      eapply Forall_impl; [|exact Hall]. unfold key_le. simpl. intros; lia.
    + constructor; [exact IH|].
      apply (Permutation_Forall (Permutation_sym (insert_by_key_perm k x l))).
      constructor; [unfold key_le; simpl; lia|exact Hall].
Qed.

Lemma sort_keyed_sorted (l : list (Z * A)) : StronglySorted key_le (sort_keyed l).
Proof.
  induction l as [|[k x] l IH]; simpl; [constructor|].
  now apply insert_by_key_sorted.
Qed.

(** A list sorted by key and a rearrangement of it with strictly
    increasing keys are the same list. *)
Lemma sorted_rearrangement_unique (l : list (Z * A)) :
  forall l0,
    StronglySorted key_le l -> StronglySorted key_lt l0 -> Permutation l l0 -> l = l0.
Proof.
  induction l as [|a l IH]; intros l0 Hl Hl0 Hp.
  - now apply Permutation_nil in Hp.
  - destruct l0 as [|b l0]; [symmetry in Hp; now apply Permutation_nil in Hp|].
    inversion Hl as [|? ? Hl' Ha]; subst. inversion Hl0 as [|? ? Hl0' Hb]; subst.
    assert (a = b) as ->.
    { destruct (Permutation_in a Hp (or_introl eq_refl)) as [E|Hin]; [now symmetry|].
      rewrite Forall_forall in Ha, Hb. specialize (Hb _ Hin).
      destruct (Permutation_in b (Permutation_sym Hp) (or_introl eq_refl)) as [E|Hin'];
        [exact E|].
      specialize (Ha _ Hin'). unfold key_le, key_lt in *. lia. }
    f_equal. apply IH; try assumption. now apply Permutation_cons_inv in Hp.
Qed.

(** Sorting a rearrangement of a list with strictly increasing keys
    gives that list back. *)
Lemma sort_keyed_rearranged (l l0 : list (Z * A)) :
  Permutation l l0 -> StronglySorted key_lt l0 -> sort_keyed l = l0.
Proof.
  intros Hp Hs. apply sorted_rearrangement_unique; [apply sort_keyed_sorted|exact Hs|].
  now rewrite sort_keyed_perm.
Qed.

Lemma keys_of_total (key : A -> option Z) (value : A -> Z) (l : list A) :
  (forall x, In x l -> key x = Some (value x)) ->
  keys_of key l = Some (map (fun x => (value x, x)) l).
Proof.
  induction l as [|x l IH]; intros H; simpl; [reflexivity|].
  rewrite (H x (or_introl eq_refl)), IH; [reflexivity|].
  intros y Hy. apply H. now right.
Qed.

Lemma increasing_keys (f : nat -> Z * A) (n : nat) :
  (forall i j, (i < j)%nat -> key_lt (f i) (f j)) ->
  forall a, StronglySorted key_lt (map f (seq a n)).
Proof.
  intros Hf. induction n as [|n IH]; intros a; simpl; constructor; [apply IH|].
  apply Forall_forall. intros x Hx. apply in_map_iff in Hx.
  destruct Hx as [j [<- Hj]]. apply in_seq in Hj. apply Hf. lia.
Qed.

(** [sort(key=...)] on a rearrangement of [map g (seq 0 n)], when the key
    of [g i] is [i + 1]: the result is [map g (seq 0 n)]. *)
Lemma sort_by_rearranged (key : A -> option Z) (g : nat -> A) (n : nat) (l : list A) :
  Permutation l (map g (seq 0 n)) ->
  (forall i, key (g i) = Some (Z.of_nat i + 1)%Z) ->
  sort_by key l = Some (map g (seq 0 n)).
Proof.
  intros Hp Hk. unfold sort_by.
  set (value := fun x => match key x with Some k => k | None => 0%Z end).
  rewrite (@keys_of_total key value).
  2:{ intros x Hx. apply (Permutation_in _ Hp) in Hx. apply in_map_iff in Hx.
      destruct Hx as [i [<- _]]. unfold value. now rewrite Hk. }
  simpl. f_equal.
  rewrite (@sort_keyed_rearranged _ (map (fun i => ((Z.of_nat i + 1)%Z, g i)) (seq 0 n))).
  - rewrite map_map. reflexivity.
  - rewrite (Permutation_map (fun x => (value x, x)) Hp), map_map.
    erewrite map_ext; [reflexivity|]. intros i. unfold value. now rewrite Hk.
  - apply increasing_keys. intros i j Hij. unfold key_lt. simpl. lia.
Qed.

End SortedManifest.

Section AllChunksSynthesized.

Variable cfg : config.
Variable w : world.
Variable stem : str.
Variable chunks : list str.

Hypothesis all_succeed_eventually :
  forall i, (i < length chunks)%nat -> first_success (synth w i) 0 3 <> None.

Lemma task_returns (chunk : str) (i : nat) :
  (i < length chunks)%nat ->
  snd (generate_audio_with_retries cfg w chunk i stem default_retries)
  = inr (Some (output_audio_path cfg i stem)).
Proof.
  intros Hi.
  pose proof (@retry_loop_spec cfg w chunk i stem default_retries 3 0
                               ltac:(right; reflexivity)) as H.
  cbv zeta in H. destruct H as [_ H].
  destruct (first_success (synth w i) 0 3) eqn:Hfs.
  - tauto.
  - now destruct (all_succeed_eventually Hi).
Qed.

Lemma combine_seq_in {B} (l : list B) (a i : nat) (x : B) :
  In (i, x) (combine (seq a (length l)) l) -> (a <= i < a + length l)%nat.
Proof.
  revert a. induction l as [|y l IH]; intros a H; simpl in H; [contradiction|].
  destruct H as [H|H].
  - injection H as <- _. simpl. lia.
  - apply IH in H. simpl. lia.
Qed.

Lemma map_fst_enumerate {B} (l : list B) : map fst (enumerate l) = seq 0 (length l).
Proof.
  unfold enumerate. generalize 0%nat.
  induction l as [|y l IH]; intros a; simpl; [reflexivity|]. now rewrite IH.
Qed.

(** When every chunk is synthesized within its three attempts, the
    collected results are the chunk files, in some order. *)
Lemma results_all_returned :
  exists audio_files,
    results (as_completed w (chunk_futures cfg w stem chunks)) = inr audio_files /\
    Permutation audio_files
                (map (fun i => Some (output_audio_path cfg i stem))
                     (seq 0 (length chunks))).
Proof.
  set (futures := chunk_futures cfg w stem chunks).
  assert (Hret : forall f, In f futures ->
                           snd (snd f) = inr (Some (output_audio_path cfg (fst f) stem))).
  { intros f Hf. unfold futures, chunk_futures in Hf. apply in_map_iff in Hf.
    destruct Hf as [[i chunk] [<- Hin]]. simpl.
    apply task_returns. apply combine_seq_in in Hin. lia. }
  assert (Hall : forall l : list (M (option Path)),
             (forall f, In f l -> exists x, snd f = inr x) ->
             results l = inr (map returned l)).
  { induction l as [|[t r] l IH]; intros H; [reflexivity|].
    destruct (H (t, r) (or_introl eq_refl)) as [x Hx]. simpl in Hx. subst r.
    simpl. rewrite IH; [reflexivity|]. intros f Hf. apply H. now right. }
  assert (Hperm : Permutation (as_completed w futures) (map snd futures)).
  { unfold as_completed. rewrite (Permutation_map snd (sort_keyed_perm _)), map_map.
    reflexivity. }
  exists (map returned (as_completed w futures)). split.
  - apply Hall. intros f Hf. apply (Permutation_in _ Hperm) in Hf.
    apply in_map_iff in Hf. destruct Hf as [g [<- Hg]]. rewrite (Hret _ Hg). eauto.
  - rewrite (Permutation_map returned Hperm), map_map.
    rewrite <- (map_fst_enumerate chunks).
    replace (map fst (enumerate chunks)) with (map fst futures).
    2:{ unfold futures, chunk_futures. rewrite map_map. apply map_ext.
        now intros [i chunk]. }
    rewrite map_map.
    erewrite map_ext_in; [reflexivity|].
    intros f Hf. unfold returned. now rewrite (Hret _ Hf).
Qed.

End AllChunksSynthesized.

Lemma task_events_no_manifest (cfg : config) (stem : str) (t : trace) :
  Forall (task_event cfg stem) t -> manifests t = [].
Proof.
  induction 1 as [|ev t Hev _ IH]; [reflexivity|].
  unfold manifests in *. simpl. rewrite IH.
  destruct ev; simpl in *; try reflexivity; contradiction.
Qed.

Lemma paths_of_chunk_files (cfg : config) (stem : str) (n : nat) :
  paths_of (map (fun i => Some (output_audio_path cfg i stem)) (seq 0 n))
  = chunk_files cfg stem n.
Proof.
  unfold paths_of, chunk_files. generalize 0%nat.
  induction n as [|n IH]; intros a; simpl; [reflexivity|]. now rewrite IH.
Qed.

(** Assembly ordering, where the sort key can be read: for a document
    whose stem does not end with "_part" (it may hold "_part_" in its
    middle) and whose chunks are all synthesized within their three
    attempts, the one manifest [process_file] writes lists the chunk
    files by chunk index, in whatever order the chunk tasks complete. *)
Lemma manifest_sorted_by_chunk_index
      (cfg : config) (w : world) (file : document) (text : str) (chunks : list str) :
  doc_content file = Some text ->
  truthy (strip text) = true ->
  split_text_into_chunks text (MAX_CHUNK_SIZE cfg) = Some chunks ->
  (forall i, (i < length chunks)%nat -> first_success (synth w i) 0 3 <> None) ->
  endswith (lit "_part") (path_stem (doc_path file)) = false ->
  manifests (fst (process_file cfg w file))
  = [(concat_file cfg, chunk_files cfg (path_stem (doc_path file)) (length chunks))].
Proof.
  intros Hc Ht Hs Hok Hstem.
  rewrite (process_file_unfold cfg w file Hc Ht Hs). cbv zeta.
  set (stem := path_stem (doc_path file)) in *.
  destruct (@results_all_returned cfg w stem chunks Hok) as [audio_files [-> Hp]].
  rewrite (@sort_by_rearranged _ sort_key
             (fun i => Some (output_audio_path cfg i stem)) (length chunks) audio_files Hp).
  2:{ intros i. now apply sort_key_output_audio_path. }
  rewrite paths_of_chunk_files.
  pose proof (task_events_no_manifest (pool_events_tasks cfg w stem chunks)) as Hpool.
  destruct (ffmpeg_ok w); cbn [fst]; unfold manifests in *; simpl;
    rewrite flat_map_app, Hpool; reflexivity.
Qed.

(** ** C6 *)

(** With an ordinary stem the manifest lists the chunk files by chunk
    index, although the tasks completed in the order 2, 0, 1. *)
Example manifest_in_index_order :
  let cfg := Build_config [lit "temp"] [lit "output"] 4 in
  let run := process_file cfg (all_succeed order_2_0_1)
                          (text_file [lit "input"] "doc.txt" "aaa bbb ccc") in
  results (as_completed (all_succeed order_2_0_1)
                        (chunk_futures cfg (all_succeed order_2_0_1) (lit "doc")
                                       [lit "aaa"; lit "bbb"; lit "ccc"]))
  = inr [Some (output_audio_path cfg 2 (lit "doc"));
         Some (output_audio_path cfg 0 (lit "doc"));
         Some (output_audio_path cfg 1 (lit "doc"))] /\
  manifests (fst run)
  = [(concat_file cfg, [output_audio_path cfg 0 (lit "doc");
                        output_audio_path cfg 1 (lit "doc");
                        output_audio_path cfg 2 (lit "doc")])] /\
  snd run = Ended Completed.
Proof. vm_compute. repeat split. Qed.

(** So it is with a stem that holds the separator in its middle. *)
Example manifest_in_index_order_separator_inside :
  let cfg := Build_config [lit "temp"] [lit "output"] 4 in
  let run := process_file cfg (all_succeed order_2_0_1)
                          (text_file [lit "input"] "a_part_b.txt" "aaa bbb ccc") in
  manifests (fst run)
  = [(concat_file cfg, [output_audio_path cfg 0 (lit "a_part_b");
                        output_audio_path cfg 1 (lit "a_part_b");
                        output_audio_path cfg 2 (lit "a_part_b")])] /\
  snd run = Ended Completed.
Proof. vm_compute. repeat split. Qed.

(** C6 -- where the code departs from the specification: the document
    "x_part__part.txt" has a stem that contains the separator "_part_";
    the stem of its third chunk file, "x_part__part_part_3", splits at
    "_part_" into "x", "" and "part_3", so the sort key [int("part_3")]
    raises ValueError.  With the three chunk files all produced and
    handed back in the order 2, 0, 1, [process_file] fails in the sort:
    no manifest is written and the Assembler does not run. *)
Theorem C6_sort_key_raises_for_separator_stem :
  let cfg := Build_config [lit "temp"] [lit "output"] 4 in
  let w := all_succeed order_2_0_1 in
  let file := text_file [lit "input"] "x_part__part.txt" "aaa bbb ccc" in
  let run := process_file cfg w file in
  path_stem (doc_path file) = lit "x_part__part" /\
  results (as_completed w (chunk_futures cfg w (lit "x_part__part")
                                         [lit "aaa"; lit "bbb"; lit "ccc"]))
  = inr [Some (output_audio_path cfg 2 (lit "x_part__part"));
         Some (output_audio_path cfg 0 (lit "x_part__part"));
         Some (output_audio_path cfg 1 (lit "x_part__part"))] /\
  split (lit "x_part__part_part_3") (lit "_part_") = [lit "x"; lit ""; lit "part_3"] /\
  sort_key (Some (output_audio_path cfg 2 (lit "x_part__part"))) = None /\
  snd run = Failed ValueError /\
  manifests (fst run) = [] /\
  assembly_ran (fst run) = false.
Proof. vm_compute. repeat split. Qed.


(* ================================================================== *)
(** * Further properties of the Chunker *)
(* ================================================================== *)

Lemma lstrip_head (s : str) (c : char) (r : str) :
  lstrip s = c :: r -> isspace c = false.
Proof.
  induction s as [|x s IH]; simpl; [discriminate|].
  destruct (isspace x) eqn:Hx; [exact IH|].
  intros H. injection H as <- _. exact Hx.
Qed.

(** What [strip] leaves begins with a character that is not whitespace. *)
Lemma strip_head (s : str) (c : char) (r : str) :
  strip s = c :: r -> isspace c = false.
Proof.
  intros H. destruct (rstrip_decompose (lstrip s)) as [trail [_ He]].
  fold (strip s) in He. rewrite H in He. simpl in He.
  exact (lstrip_head _ He).
Qed.

Lemma lstrip_idempotent (s : str) : lstrip (lstrip s) = lstrip s.
Proof.
  induction s as [|x s IH]; simpl; [reflexivity|].
  destruct (isspace x) eqn:Hx; [exact IH|]. simpl. now rewrite Hx.
Qed.

Lemma strip_idempotent (s : str) : strip (strip s) = strip s.
Proof.
  assert (Hl : lstrip (strip s) = strip s).
  { destruct (strip s) as [|c r] eqn:E; [reflexivity|].
    simpl. now rewrite (strip_head _ E). }
  unfold strip at 1. rewrite Hl. unfold strip, rstrip.
  now rewrite rev_involutive, lstrip_idempotent.
Qed.

Section CleanChunks.

Variable max_length : Z.
Hypothesis max_length_positive : (1 <= max_length)%Z.

(** A cut in a text that does not begin with a space is not at 0. *)
Lemma cut_after_text (text : str) :
  (len text > max_length)%Z ->
  no_leading_space text = true ->
  exists h t, slice_to text (split_index text max_length) = h :: t /\
              exists r, text = h :: r.
Proof.
  intros Hlen Hns.
  destruct (@split_index_range max_length max_length_positive text Hlen) as [Hr H0].
  set (i := split_index text max_length) in *.
  assert (Hi : (1 <= i)%Z).
  { destruct (Z.eq_dec i 0) as [E|]; [|lia].
    destruct (H0 E) as [r ->]. simpl in Hns. discriminate. }
  unfold slice_to. rewrite clamp_nonneg by lia.
  destruct text as [|h r]; [unfold len in Hlen; simpl in Hlen; lia|].
  destruct (Nat.min (Z.to_nat i) (length (h :: r))) as [|k] eqn:Hk; [simpl in Hk; lia|].
  simpl. eauto.
Qed.

(** From a text that begins with a character that is not whitespace (or
    is empty) the loop only cuts chunks that begin with such a
    character. *)
Lemma split_loop_clean (fuel : nat) :
  forall text chunks result,
    (text = [] \/ begins_with_text text = true) ->
    split_loop fuel max_length text chunks = Some result ->
    exists cs, result = chunks ++ cs /\ Forall (fun c => begins_with_text c = true) cs.
Proof.
  induction fuel as [|fuel IH]; intros text chunks result Hb H; [discriminate|].
  simpl in H. destruct (Z.gtb_spec (len text) max_length) as [Hgt|Hle].
  - assert (Htext : begins_with_text text = true).
    { destruct Hb as [->|Hb]; [unfold len in Hgt; simpl in Hgt; lia|exact Hb]. }
    assert (Hns : no_leading_space text = true).
    { destruct text as [|h r]; [reflexivity|]. simpl in *.
      destruct (N.eqb_spec h space) as [->|]; [discriminate|reflexivity]. }
    destruct (cut_after_text text ltac:(lia) Hns) as [h [t [Hc [r Hr]]]].
    apply IH in H.
    + destruct H as [cs [-> Hcs]]. exists (slice_to text (split_index text max_length) :: cs).
      split; [now rewrite <- app_assoc|]. constructor; [|exact Hcs].
      rewrite Hc. rewrite Hr in Htext. exact Htext.
    + destruct (strip (slice_from text (split_index text max_length))) as [|c s] eqn:E;
        [now left|right].
      simpl. now rewrite (strip_head _ E).
  - injection H as <-. destruct text as [|h r]; simpl.
    + exists []. split; [now rewrite app_nil_r|constructor].
    + exists [h :: r]. split; [reflexivity|].
      constructor; [|constructor]. destruct Hb as [Hb|Hb]; [discriminate|exact Hb].
Qed.

End CleanChunks.

(** X1 -- only the first chunk can be empty: for max_length >= 1 the
    chunker returns chunks of which every one after the first begins
    with a character that is not whitespace (so it is not empty), and
    the first chunk is not empty either when the text does not begin
    with a space. *)
Theorem X1_chunks_after_first_begin_with_text (text : str) (max_length : Z) :
  (1 <= max_length)%Z ->
  exists chunks,
    split_text_into_chunks text max_length = Some chunks /\
    Forall (fun c => begins_with_text c = true) (tl chunks) /\
    (no_leading_space text = true -> Forall (fun c => c <> []) chunks).
Proof.
  intros HL.
  destruct (split_text_into_chunks_spec text HL) as [chunks [Hs _]].
  exists chunks. split; [exact Hs|].
  unfold split_text_into_chunks in Hs. cbn [split_loop] in Hs.
  destruct (Z.gtb_spec (len text) max_length) as [Hgt|Hle].
  - apply (@split_loop_clean max_length HL) in Hs.
    + destruct Hs as [cs [-> Hcs]]. simpl. split; [exact Hcs|].
      intros Hns. destruct (@cut_after_text max_length HL text ltac:(lia) Hns)
        as [h [t [Hc _]]].
      constructor; [rewrite Hc; discriminate|].
      eapply Forall_impl; [|exact Hcs]. intros c Hcb ->. discriminate.
    + destruct (strip (slice_from text (split_index text max_length))) as [|c s] eqn:E;
        [now left|right].
      simpl. now rewrite (strip_head _ E).
  - injection Hs as <-. destruct text as [|h r]; simpl.
    + split; [constructor|]. intros _. constructor.
    + split; [constructor|]. intros _. constructor; [discriminate|constructor].
Qed.

Lemma X1_chunks_after_first_begin_with_text_witness :
  exists chunks,
    split_text_into_chunks (lit "ab  cdefgh ij") 4 = Some chunks /\
    Forall (fun c => begins_with_text c = true) (tl chunks) /\
    Forall (fun c => c <> []) chunks.
Proof.
  destruct (@X1_chunks_after_first_begin_with_text (lit "ab  cdefgh ij") 4 ltac:(lia))
    as [chunks [Hs [Ht Hn]]].
  exists chunks. split; [exact Hs|]. split; [exact Ht|]. apply Hn. reflexivity.
Defined.

Lemma rindex_absent (c : char) (s : str) :
  (forall x, In x s -> x <> c) -> rindex c s = None.
Proof.
  induction s as [|x s IH]; intros H; simpl; [reflexivity|].
  rewrite IH by (intros y Hy; apply H; now right).
  destruct (N.eqb_spec x c) as [E|]; [|reflexivity].
  exfalso. apply (H x); [now left|exact E].
Qed.

Lemma in_firstn (n : nat) (s : str) (x : char) : In x (firstn n s) -> In x s.
Proof. intros H. rewrite <- (firstn_skipn n s). apply in_or_app. now left. Qed.

Lemma in_skipn (n : nat) (s : str) (x : char) : In x (skipn n s) -> In x s.
Proof. intros H. rewrite <- (firstn_skipn n s). apply in_or_app. now right. Qed.

Section FixedWidth.

Variable max_length : Z.
Hypothesis max_length_positive : (1 <= max_length)%Z.

Local Abbreviation width := (Z.to_nat max_length).

(** Without whitespace the cut is forced at [max_length] and nothing is
    stripped. *)
Lemma loop_body_fixed_width (text : str) :
  Forall (fun c => isspace c = false) text ->
  (len text > max_length)%Z ->
  slice_to text (split_index text max_length) = firstn width text /\
  strip (slice_from text (split_index text max_length)) = skipn width text.
Proof.
  intros Hw Hlen.
  assert (Hi : split_index text max_length = max_length).
  { unfold split_index, rfind. rewrite rindex_absent; [reflexivity|].
    intros x Hx E. subst x. unfold slice_to in Hx. apply in_firstn in Hx.
    rewrite Forall_forall in Hw. specialize (Hw _ Hx). discriminate. }
  rewrite Hi. unfold slice_to, slice_from. rewrite clamp_nonneg by lia.
  unfold len in Hlen. rewrite Nat.min_l by lia. split; [reflexivity|].
  apply strip_no_space. apply Forall_forall. intros x Hx.
  rewrite Forall_forall in Hw. apply Hw. eapply in_skipn. exact Hx.
Qed.

Lemma split_loop_fixed_width (fuel : nat) :
  forall text chunks result,
    Forall (fun c => isspace c = false) text ->
    split_loop fuel max_length text chunks = Some result ->
    exists cs,
      result = chunks ++ cs /\
      concat cs = text /\
      (forall i c, nth_error cs i = Some c ->
                   c = firstn width (skipn (i * width) text)) /\
      Z.of_nat (length cs) = ((len text + max_length - 1) / max_length)%Z.
Proof.
  induction fuel as [|fuel IH]; intros text chunks result Hw H; [discriminate|].
  simpl in H. destruct (Z.gtb_spec (len text) max_length) as [Hgt|Hle].
  - destruct (loop_body_fixed_width Hw ltac:(lia)) as [Hc Hrest].
    rewrite Hc, Hrest in H. apply IH in H.
    2:{ apply Forall_forall. intros x Hx. rewrite Forall_forall in Hw.
        apply Hw. eapply in_skipn. exact Hx. }
    destruct H as [cs [-> [Hcat [Hnth Hcount]]]].
    exists (firstn width text :: cs). split; [now rewrite <- app_assoc|]. split; [|split].
    + simpl. rewrite Hcat. apply firstn_skipn.
    + intros [|i] c Hi; simpl in Hi.
      * injection Hi as <-. reflexivity.
      * rewrite (Hnth _ _ Hi), skipn_skipn. do 2 f_equal. simpl. lia.
    + simpl length. rewrite Nat2Z.inj_succ, Hcount. unfold len in *.
      rewrite length_skipn.
      replace (Z.of_nat (length text) + max_length - 1)%Z
        with (Z.of_nat (length text - width) + max_length - 1 + 1 * max_length)%Z by lia.
      rewrite Z.div_add by lia. lia.
  - injection H as <-. unfold len in *. destruct text as [|h r]; simpl truthy; cbv iota.
    + exists []. split; [now rewrite app_nil_r|]. split; [reflexivity|]. split.
      * intros [|i] c Hi; discriminate.
      * simpl. symmetry. apply Z.div_small. lia.
    + exists [h :: r]. split; [reflexivity|]. split; [apply app_nil_r|]. split.
      * intros [|i] c Hi; simpl in Hi; [|destruct i; discriminate].
        injection Hi as <-. simpl skipn. symmetry. apply firstn_all2. lia.
      * change (Z.of_nat (length [h :: r])) with 1%Z.
        apply Z.div_unique with (r := (Z.of_nat (length (h :: r)) - 1)%Z).
        -- left. simpl length in *. lia.
        -- lia.
Qed.

End FixedWidth.

(** X2 -- a text without whitespace is cut into consecutive slices of
    max_length characters: for max_length >= 1 the chunks concatenate to
    the text, chunk i is [text[i*L : (i+1)*L]], and their number is
    ceil(len(text) / max_length). *)
Theorem X2_text_without_whitespace_fixed_width (text : str) (max_length : Z) :
  (1 <= max_length)%Z ->
  Forall (fun c => isspace c = false) text ->
  exists chunks,
    split_text_into_chunks text max_length = Some chunks /\
    concat chunks = text /\
    (forall i c, nth_error chunks i = Some c ->
                 c = firstn (Z.to_nat max_length)
                            (skipn (i * Z.to_nat max_length) text)) /\
    Z.of_nat (length chunks) = ((len text + max_length - 1) / max_length)%Z.
Proof.
  intros HL Hw.
  destruct (split_text_into_chunks_spec text HL) as [chunks [Hs _]].
  exists chunks. split; [exact Hs|].
  destruct (@split_loop_fixed_width max_length HL _ _ _ _ Hw Hs) as [cs [E H]].
  simpl in E. subst cs. exact H.
Qed.

Lemma X2_text_without_whitespace_fixed_width_witness :
  exists chunks,
    split_text_into_chunks (lit "abcdefghij") 4 = Some chunks /\
    concat chunks = lit "abcdefghij" /\
    (forall i c, nth_error chunks i = Some c ->
                 c = firstn (Z.to_nat 4) (skipn (i * Z.to_nat 4) (lit "abcdefghij"))) /\
    Z.of_nat (length chunks) = ((len (lit "abcdefghij") + 4 - 1) / 4)%Z.
Proof.
  apply (@X2_text_without_whitespace_fixed_width (lit "abcdefghij") 4).
  - lia.
  - repeat constructor.
Defined.

(** X3 -- a max_length that is not positive makes the chunker loop for
    ever: with max_length < 0 on every text, with max_length = 0 on
    every text that is not blank.  However many iterations are allowed,
    the loop has not ended; [process_file] on such a document gets no
    further than reading it. *)
Theorem X3_nonpositive_max_length_never_ends (text : str) (max_length : Z) :
  (max_length <= 0)%Z ->
  (max_length < 0)%Z \/ strip text <> [] ->
  (forall fuel chunks, split_loop fuel max_length text chunks = None) /\
  (strip text <> [] ->
   forall cfg w file,
     MAX_CHUNK_SIZE cfg = max_length ->
     doc_content file = Some text ->
     process_file cfg w file = ([Read (doc_path file)], Ended Hangs)).
Proof.
  intros HL Hcase.
  assert (Hloop : forall fuel t chunks,
             (max_length < 0)%Z \/ strip t <> [] ->
             split_loop fuel max_length t chunks = None).
  { induction fuel as [|fuel IH]; intros t chunks Ht; [reflexivity|].
    simpl. destruct (Z.gtb_spec (len t) max_length) as [_|Hle].
    - apply IH.
      assert (max_length = 0%Z \/ (max_length < 0)%Z) as [E|Hneg] by lia; [|now left].
      destruct Ht as [Hneg|Hne]; [lia|]. right.
      assert (Hi : split_index t max_length = 0%Z) by (subst max_length; reflexivity).
      rewrite Hi. unfold slice_from. simpl skipn. now rewrite strip_idempotent.
    - unfold len in Hle. destruct Ht as [Hneg|Hne]; [lia|].
      exfalso. apply Hne. destruct t; [reflexivity|]. simpl in Hle. lia. }
  split; [intros fuel chunks; now apply Hloop|].
  intros Hne cfg w file Hcfg Hc.
  unfold process_file, process_file_body. rewrite Hc. simpl.
  destruct (strip text) eqn:E; [congruence|]. simpl.
  rewrite Hcfg. unfold split_text_into_chunks.
  rewrite Hloop; [reflexivity|]. right. rewrite E. discriminate.
Qed.

Lemma X3_nonpositive_max_length_never_ends_witness :
  (forall fuel chunks, split_loop fuel 0 (lit "a b") chunks = None) /\
  process_file (Build_config [lit "temp"] [lit "output"] 0) (all_succeed in_index_order)
               (text_file [lit "input"] "doc.txt" "a b")
  = ([Read ([lit "input"] // lit "doc.txt")], Ended Hangs).
Proof.
  destruct (@X3_nonpositive_max_length_never_ends (lit "a b") 0) as [H1 H2].
  - lia.
  - right. vm_compute. discriminate.
  - split; [exact H1|]. apply H2; [vm_compute; discriminate|reflexivity|reflexivity].
Defined.

Section ChunkCount.

Variable max_length : Z.
Hypothesis max_length_positive : (1 <= max_length)%Z.

(** The loop adds no more chunks than the text has characters. *)
Lemma split_loop_count (fuel : nat) :
  forall text chunks result,
    split_loop fuel max_length text chunks = Some result ->
    exists cs, result = chunks ++ cs /\ (length cs <= length text)%nat.
Proof.
  induction fuel as [|fuel IH]; intros text chunks result H; [discriminate|].
  simpl in H. destruct (Z.gtb_spec (len text) max_length) as [Hgt|Hle].
  - apply IH in H. destruct H as [cs [-> Hn]].
    pose proof (@loop_body_shortens max_length max_length_positive text ltac:(lia)) as Hs.
    unfold remaining_text in Hs.
    exists (slice_to text (split_index text max_length) :: cs).
    split; [now rewrite <- app_assoc|]. simpl. lia.
  - injection H as <-. destruct text as [|h r]; simpl.
    + exists []. split; [now rewrite app_nil_r|]. simpl. lia.
    + exists [h :: r]. split; [reflexivity|]. simpl. lia.
Qed.

Lemma concat_length_bound (cs : list str) :
  Forall (fun c => (len c <= max_length)%Z) cs ->
  (len (concat cs) <= max_length * Z.of_nat (length cs))%Z.
Proof.
  induction 1 as [|c cs Hc _ IH]; unfold len in *; simpl; [lia|].
  rewrite length_app. lia.
Qed.

End ChunkCount.

Lemma remove_ws_length (s : str) : (length (remove_ws s) <= length s)%nat.
Proof. apply filter_length_le. Qed.

(** X4 -- how many chunks: for max_length >= 1 the chunker returns at
    most len(text) chunks, and at least as many as the characters of the
    text that are not whitespace need, max_length to a chunk. *)
Theorem X4_chunk_count_bounds (text : str) (max_length : Z) :
  (1 <= max_length)%Z ->
  exists chunks,
    split_text_into_chunks text max_length = Some chunks /\
    (length chunks <= length text)%nat /\
    (len (remove_ws text) <= max_length * Z.of_nat (length chunks))%Z.
Proof.
  intros HL.
  destruct (split_text_into_chunks_spec text HL) as [chunks [Hs [Hg Hb]]].
  exists chunks. split; [exact Hs|]. split.
  - destruct (@split_loop_count max_length HL _ _ _ _ Hs) as [cs [E Hn]].
    simpl in E. now subst cs.
  - assert (Hrw : remove_ws text = remove_ws (concat chunks)).
    { destruct (glued_gaps Hg [] eq_refl) as [[-> ->]|[gaps [Hn [Hw He]]]]; [reflexivity|].
      rewrite app_nil_r in He. rewrite He. now apply remove_ws_interleave. }
    rewrite Hrw. pose proof (concat_length_bound Hb) as H1.
    pose proof (remove_ws_length (concat chunks)) as H2. unfold len in *. lia.
Qed.

Lemma X4_chunk_count_bounds_witness :
  exists chunks,
    split_text_into_chunks (lit "hello big world") 8 = Some chunks /\
    (length chunks <= length (lit "hello big world"))%nat /\
    (len (remove_ws (lit "hello big world")) <= 8 * Z.of_nat (length chunks))%Z.
Proof. apply (@X4_chunk_count_bounds (lit "hello big world") 8). lia. Defined.

(* ================================================================== *)
(** * Further properties of the Synthesis Client *)
(* ================================================================== *)



Lemma output_audio_path_inj (cfg : config) (i j : nat) (stem stem' : str) :
  output_audio_path cfg i stem = output_audio_path cfg j stem' -> i = j /\ stem = stem'.
Proof.
  unfold output_audio_path, joinpath. intros H.
  rewrite <- !app_assoc in H. apply app_inv_head in H. simpl in H.
  injection H as Hstem Hname. subst stem'. split; [|reflexivity].
  apply app_inv_head in Hname. injection Hname as Hname. apply app_inv_tail in Hname.
  destruct (@str_of_int_positive (Z.of_nat i + 1) ltac:(lia)) as [_ [Hi _]].
  destruct (@str_of_int_positive (Z.of_nat j + 1) ltac:(lia)) as [_ [Hj _]].
  rewrite Hname, Hj in Hi. injection Hi as Hi. lia.
Qed.



(* ================================================================== *)
(** * Further properties of the Run Coordinator *)
(* ================================================================== *)

Section TaskCalls.

Variable cfg : config.
Variable w : world.
Variable stem : str.

(** Every synthesis call of a task sends the task's own chunk. *)
Lemma retry_loop_calls (chunk : str) (i : nat) (retries : Z) (m : nat) :
  forall a, Forall (fun c => c = chunk)
                   (synth_calls (fst (retry_loop cfg w chunk i stem retries a m))).
Proof.
  induction m as [|m IH]; intros a; [constructor|].
  rewrite retry_loop_step. cbv zeta. specialize (IH (S a)).
  destruct (synth w i a); simpl.
  - repeat constructor.
  - destruct (Z.of_nat a <? retries - 1)%Z.
    + destruct (retry_loop cfg w chunk i stem retries (S a) m) as [t r]. simpl in *.
      constructor; [reflexivity|exact IH].
    + simpl. repeat constructor.
  - destruct (Z.of_nat a <? retries - 1)%Z.
    + destruct (retry_loop cfg w chunk i stem retries (S a) m) as [t r]. simpl in *.
      constructor; [reflexivity|exact IH].
    + simpl. repeat constructor.
Qed.

(** A task makes between one and three calls, all with its chunk. *)
Lemma calls_of_task (e : nat * str) :
  exists k, (1 <= k <= 3)%nat /\ calls_of cfg w stem e = repeat (snd e) k.
Proof.
  destruct e as [i chunk]. unfold calls_of, generate_audio_with_retries. simpl fst. simpl snd.
  change (Z.to_nat default_retries) with 3%nat.
  pose proof (retry_loop_calls chunk i default_retries 3 0) as HF.
  pose proof (@retry_loop_spec cfg w chunk i stem default_retries 3 0
                               ltac:(right; reflexivity)) as H.
  cbv zeta in H. destruct H as [_ H].
  set (calls := synth_calls (fst (retry_loop cfg w chunk i stem default_retries 0 3))) in *.
  exists (length calls). split.
  - destruct (first_success (synth w i) 0 3) as [j|] eqn:Hfs.
    + destruct (first_success_range _ _ _ Hfs) as [Hj _]. destruct H as [_ [Hc _]]. lia.
    + destruct H as [Hc _]. lia.
  - apply Forall_eq_repeat. eapply Forall_impl; [|exact HF]. intros c ->. reflexivity.
Qed.

Lemma pool_calls (chunks : list str) :
  synth_calls (pool_events cfg w stem chunks)
  = flat_map (calls_of cfg w stem) (enumerate chunks).
Proof.
  unfold pool_events, chunk_futures. generalize (enumerate chunks).
  induction l as [|[i chunk] l IH]; [reflexivity|].
  simpl. unfold synth_calls in *. rewrite flat_map_app, IH. reflexivity.
Qed.

Lemma map_snd_enumerate {B} (l : list B) : map snd (enumerate l) = l.
Proof.
  unfold enumerate. generalize 0%nat.
  induction l as [|y l IH]; intros a; simpl; [reflexivity|]. now rewrite IH.
Qed.

Lemma flat_map_calls_length (l : list (nat * str)) :
  (length l <= length (flat_map (calls_of cfg w stem) l) <= 3 * length l)%nat.
Proof.
  induction l as [|e l IH]; simpl; [lia|].
  destruct (calls_of_task e) as [k [Hk ->]].
  rewrite length_app, repeat_length. lia.
Qed.

End TaskCalls.

(** The synthesis calls of a run are the calls of its chunk tasks. *)
Lemma process_file_calls (cfg : config) (w : world) (file : document)
      (text : str) (chunks : list str) :
  doc_content file = Some text ->
  truthy (strip text) = true ->
  split_text_into_chunks text (MAX_CHUNK_SIZE cfg) = Some chunks ->
  synth_calls (fst (process_file cfg w file))
  = flat_map (calls_of cfg w (path_stem (doc_path file))) (enumerate chunks).
Proof.
  intros Hc Ht Hs. rewrite (process_file_unfold cfg w file Hc Ht Hs). cbv zeta.
  rewrite <- pool_calls.
  set (pool := pool_events cfg w (path_stem (doc_path file)) chunks).
  assert (H0 : synth_calls (Read (doc_path file) :: pool) = synth_calls pool) by reflexivity.
  destruct (results _) as [e|audio_files]; [exact H0|].
  destruct (sort_by sort_key audio_files) as [sorted|]; [|exact H0].
  destruct (ffmpeg_ok w); cbn [fst]; unfold synth_calls; simpl;
    rewrite flat_map_app; simpl; apply app_nil_r.
Qed.

(** X7 -- every chunk is sent to synthesis, whatever happens to the
    others: in a run that gets past chunking, the texts sent to the
    service are exactly the chunks, each chunk task making between one
    and three calls, also when some chunk fails for good (the error of a
    task does not stop the tasks of its siblings). *)
Theorem X7_every_chunk_is_synthesized (cfg : config) (w : world) (file : document)
        (text : str) (chunks : list str) :
  doc_content file = Some text ->
  truthy (strip text) = true ->
  split_text_into_chunks text (MAX_CHUNK_SIZE cfg) = Some chunks ->
  let calls := synth_calls (fst (process_file cfg w file)) in
  (forall chunk, In chunk chunks <-> In chunk calls) /\
  (length chunks <= length calls <= 3 * length chunks)%nat.
Proof.
  intros Hc Ht Hs calls. subst calls.
  rewrite (process_file_calls cfg w file Hc Ht Hs).
  set (stem := path_stem (doc_path file)). split.
  - intros chunk. split.
    + intros Hin. apply In_nth_error in Hin. destruct Hin as [i Hi].
      apply in_flat_map. exists (i, chunk). split; [now apply enumerate_nth|].
      destruct (calls_of_task cfg w stem (i, chunk)) as [k [Hk ->]].
      destruct k; [lia|]. now left.
    + intros Hin. apply in_flat_map in Hin. destruct Hin as [e [He Hin]].
      destruct (calls_of_task cfg w stem e) as [k [_ Hk]]. rewrite Hk in Hin.
      apply repeat_spec in Hin. subst chunk.
      rewrite <- (map_snd_enumerate chunks). now apply in_map.
  - pose proof (flat_map_calls_length cfg w stem (enumerate chunks)) as H.
    assert (E : length (enumerate chunks) = length chunks).
    { unfold enumerate. now rewrite length_combine, length_seq, Nat.min_id. }
    rewrite E in H. exact H.
Qed.

Lemma X7_every_chunk_is_synthesized_witness :
  let run := process_file (Build_config [lit "temp"] [lit "output"] 4)
                          (chunk_always_fails 1 order_2_0_1)
                          (text_file [lit "input"] "doc.txt" "aaa bbb ccc") in
  (forall chunk, In chunk [lit "aaa"; lit "bbb"; lit "ccc"]
                 <-> In chunk (synth_calls (fst run))) /\
  (length [lit "aaa"; lit "bbb"; lit "ccc"] <= length (synth_calls (fst run))
   <= 3 * length [lit "aaa"; lit "bbb"; lit "ccc"])%nat.
Proof.
  apply (@X7_every_chunk_is_synthesized
           (Build_config [lit "temp"] [lit "output"] 4)
           (chunk_always_fails 1 order_2_0_1)
           (text_file [lit "input"] "doc.txt" "aaa bbb ccc")
           (lit "aaa bbb ccc") [lit "aaa"; lit "bbb"; lit "ccc"]); reflexivity.
Defined.

(** The runs of [process_file], by how far they get. *)
Lemma process_file_shape (cfg : config) (w : world) (file : document) :
  (process_file cfg w file = ([Read (doc_path file)], Ended Skipped) \/
   process_file cfg w file = ([Read (doc_path file)], Ended Hangs) \/
   process_file cfg w file = ([Read (doc_path file)], Failed (IOError 0))) \/
  exists pool,
    Forall (task_event cfg (path_stem (doc_path file))) pool /\
    ((exists e, process_file cfg w file = (Read (doc_path file) :: pool, Failed e)) \/
     (exists files,
         ffmpeg_ok w = false /\
         process_file cfg w file
         = (Read (doc_path file)
                 :: pool ++ assembly_events cfg (path_stem (doc_path file)) files,
            Failed CalledProcessError)) \/
     (exists files,
         ffmpeg_ok w = true /\
         process_file cfg w file
         = (Read (doc_path file)
                 :: pool ++ assembly_events cfg (path_stem (doc_path file)) files
                 ++ [Move (doc_path file)
                          (processed_file_path cfg (path_stem (doc_path file)))],
            Ended Completed))).
Proof.
  destruct (doc_content file) as [text|] eqn:Hc.
  2:{ left. right. right. unfold process_file, process_file_body. now rewrite Hc. }
  destruct (truthy (strip text)) eqn:Ht.
  2:{ left. left. unfold process_file, process_file_body. rewrite Hc. simpl.
      now rewrite Ht. }
  destruct (split_text_into_chunks text (MAX_CHUNK_SIZE cfg)) as [chunks|] eqn:Hs.
  2:{ left. right. left. unfold process_file, process_file_body. rewrite Hc. simpl.
      now rewrite Ht, Hs. }
  right. exists (pool_events cfg w (path_stem (doc_path file)) chunks).
  split; [apply pool_events_tasks|].
  rewrite (process_file_unfold cfg w file Hc Ht Hs). cbv zeta.
  destruct (results _) as [e|audio_files]; [left; eauto|].
  destruct (sort_by sort_key audio_files) as [sorted|]; [|left; eauto].
  destruct (ffmpeg_ok w); [right; right|right; left]; eauto.
Qed.

Lemma task_events_no_unlink (cfg : config) (stem : str) (t : trace) :
  Forall (task_event cfg stem) t -> unlinks t = [].
Proof.
  induction 1 as [|ev t Hev _ IH]; [reflexivity|].
  unfold unlinks in *. simpl. rewrite IH.
  destruct ev; simpl in *; try reflexivity; contradiction.
Qed.

(** X8 -- [process_file] removes nothing but the manifest, and not
    before ffmpeg ran on it: in every run, whatever the world does, an
    [Unlink] (the [finally] clause of [combine_audio_files], which
    removes the manifest if it is still there) is reached at most once,
    is on [concat_file], and comes directly after the ffmpeg run on the
    manifest that this run wrote directly before; a run that gets no
    further than the chunk tasks removes nothing. *)
Theorem X8_only_the_manifest_is_removed (cfg : config) (w : world) (file : document) :
  let t := fst (process_file cfg w file) in
  (length (unlinks t) <= 1)%nat /\
  (forall p,
      In (Unlink p) t ->
      p = concat_file cfg /\
      exists before files out after,
        t = before ++ [WriteManifest p files; Ffmpeg p out; Unlink p] ++ after).
Proof.
  intros t. subst t.
  assert (Hasm : forall pool files rest,
             Forall (task_event cfg (path_stem (doc_path file))) pool ->
             (forall p, ~ In (Unlink p) rest) ->
             unlinks rest = [] ->
             let t := Read (doc_path file)
                           :: pool ++ assembly_events cfg (path_stem (doc_path file)) files
                           ++ rest in
             (length (unlinks t) <= 1)%nat /\
             (forall p,
                 In (Unlink p) t ->
                 p = concat_file cfg /\
                 exists before l out after,
                   t = before ++ [WriteManifest p l; Ffmpeg p out; Unlink p] ++ after)).
  { intros pool files rest Hp Hrest Hu t. subst t. split.
    - pose proof (task_events_no_unlink Hp) as Hpu.
      unfold unlinks in *. simpl. rewrite !flat_map_app. simpl.
      rewrite Hpu, Hu. simpl. lia.
    - intros p [H|H]; [discriminate|].
      apply in_app_or in H. destruct H as [H|H].
      { rewrite Forall_forall in Hp. destruct (Hp _ H). }
      apply in_app_or in H. destruct H as [H|H]; [|destruct (Hrest _ H)].
      simpl in H. destruct H as [H|[H|[H|[H|[]]]]]; try discriminate.
      injection H as <-. split; [reflexivity|].
      exists (Read (doc_path file)
                   :: pool ++ [Mkdir (OUTPUT_FOLDER cfg // path_stem (doc_path file))]),
        files,
        (OUTPUT_FOLDER cfg // path_stem (doc_path file)
                       // (path_stem (doc_path file) ++ lit ".mp3")),
        rest.
      simpl. rewrite <- app_assoc. reflexivity. }
  assert (Hnone : forall t',
             unlinks t' = [] ->
             (forall p, ~ In (Unlink p) t') ->
             (length (unlinks t') <= 1)%nat /\
             (forall p,
                 In (Unlink p) t' ->
                 p = concat_file cfg /\
                 exists before l out after,
                   t' = before ++ [WriteManifest p l; Ffmpeg p out; Unlink p] ++ after)).
  { intros t' Hu Hn. split; [rewrite Hu; simpl; lia|]. intros p H. destruct (Hn _ H). }
  destruct (process_file_shape cfg w file) as [[H|[H|H]]|[pool [Hp [[e H]|[[files [_ H]]|[files [_ H]]]]]]];
    rewrite H; cbn [fst].
  - apply Hnone; try reflexivity. intros p [E|[]]. discriminate.
  - apply Hnone; try reflexivity. intros p [E|[]]. discriminate.
  - apply Hnone; try reflexivity. intros p [E|[]]. discriminate.
  - apply Hnone.
    + unfold unlinks. simpl. apply (task_events_no_unlink Hp).
    + intros p [E|E]; [discriminate|]. rewrite Forall_forall in Hp. destruct (Hp _ E).
  - rewrite <- (app_nil_r (assembly_events _ _ _)).
    apply Hasm; try assumption; try reflexivity. intros p [].
  - apply Hasm; try assumption; try reflexivity. intros p [E|[]]. discriminate.
Qed.

Lemma X8_only_the_manifest_is_removed_witness :
  let cfg := Build_config [lit "temp"] [lit "output"] 4 in
  let t := fst (process_file cfg (ffmpeg_fails order_2_0_1)
                             (text_file [lit "input"] "doc.txt" "aaa bbb ccc")) in
  (length (unlinks t) <= 1)%nat /\
  exists before files out after,
    t = before ++ [WriteManifest (concat_file cfg) files;
                   Ffmpeg (concat_file cfg) out;
                   Unlink (concat_file cfg)] ++ after.
Proof.
  intros cfg t.
  destruct (@X8_only_the_manifest_is_removed
              cfg (ffmpeg_fails order_2_0_1)
              (text_file [lit "input"] "doc.txt" "aaa bbb ccc")) as [H1 H2].
  split; [exact H1|].
  destruct (H2 (concat_file cfg)) as [_ H].
  - vm_compute. repeat (first [left; reflexivity | right]).
  - exact H.
Defined.

Section TaskResults.

Variable cfg : config.
Variable w : world.
Variable stem : str.

(** A chunk task returns the chunk file when one of its three attempts
    succeeds, and raises when none does. *)
Lemma task_result (chunk : str) (i : nat) :
  match first_success (synth w i) 0 3 with
  | Some _ => snd (generate_audio_with_retries cfg w chunk i stem default_retries)
              = inr (Some (output_audio_path cfg i stem))
  | None => exists e, snd (generate_audio_with_retries cfg w chunk i stem default_retries)
                      = inl e
  end.
Proof.
  pose proof (@retry_loop_spec cfg w chunk i stem default_retries 3 0
                               ltac:(right; reflexivity)) as H.
  cbv zeta in H. destruct H as [_ H].
  destruct (first_success (synth w i) 0 3).
  - tauto.
  - destruct H as [_ [_ [e [_ He]]]]. eauto.
Qed.

Lemma results_inr {B} (l : list (M (option B))) (xs : list (option B)) :
  results l = inr xs ->
  xs = map returned l /\ forall f, In f l -> exists x, snd f = inr x.
Proof.
  revert xs. induction l as [|[t [e|a]] l IH]; intros xs H; simpl in H.
  - injection H as <-. split; [reflexivity|]. intros f [].
  - discriminate.
  - destruct (results l) as [e|ys]; [discriminate|]. injection H as <-.
    destruct (IH ys eq_refl) as [-> Hall]. split; [reflexivity|].
    intros f [<-|Hf]; [simpl; eauto|auto].
Qed.

(** When the collection of the results does not raise, every chunk was
    synthesized and the results are the chunk files, in some order. *)
Lemma results_collected (chunks : list str) (audio_files : list (option Path)) :
  results (as_completed w (chunk_futures cfg w stem chunks)) = inr audio_files ->
  (forall i, (i < length chunks)%nat -> first_success (synth w i) 0 3 <> None) /\
  Permutation audio_files
              (map (fun i => Some (output_audio_path cfg i stem)) (seq 0 (length chunks))).
Proof.
  intros H. destruct (results_inr _ H) as [_ Hall].
  assert (Hok : forall i, (i < length chunks)%nat -> first_success (synth w i) 0 3 <> None).
  { intros i Hi Hnone.
    destruct (@chunk_future_submitted cfg w stem chunks i Hi) as [chunk Hin].
    apply (as_completed_complete w) in Hin. destruct (Hall _ Hin) as [x Hx].
    pose proof (task_result chunk i) as Ht. rewrite Hnone in Ht.
    destruct Ht as [e He]. simpl in Hx. congruence. }
  split; [exact Hok|].
  destruct (@results_all_returned cfg w stem chunks Hok) as [af [Haf Hp]].
  rewrite H in Haf. injection Haf as <-. exact Hp.
Qed.

End TaskResults.

(* ================================================================== *)
(** * The sort key on any stem *)
(* ================================================================== *)

Section SortKeyAnyStem.

Local Abbreviation sep := (lit "_part_").

(** A character other than "_" does not begin a separator. *)
Lemma split_go_pass (c : char) (r cur : str) :
  c <> 95%N -> split_go sep (c :: r) 0 cur = split_go sep r 0 (c :: cur).
Proof.
  intros Hc. cbn [split_go].
  destruct (startswith sep (c :: r)) eqn:Hm; [|reflexivity].
  apply startswith_prefix in Hm. destruct Hm as [rest Hm].
  unfold lit in Hm. simpl in Hm. injection Hm as -> _. congruence.
Qed.

(** "_" in front of digits only does not begin a separator. *)
Lemma split_go_pass_underscore (ds cur : str) :
  Forall is_digit ds ->
  split_go sep (95%N :: ds) 0 cur = split_go sep ds 0 (95%N :: cur).
Proof.
  intros Hd. cbn [split_go].
  destruct (startswith sep (95%N :: ds)) eqn:Hm; [|reflexivity].
  apply startswith_prefix in Hm. destruct Hm as [rest Hm].
  unfold lit in Hm. simpl in Hm. injection Hm as ->.
  inversion Hd as [|? ? H _]; subst. unfold is_digit in H. lia.
Qed.

(** Splitting [u ++ "_part_" ++ digits], from anywhere in [u]: the last
    piece is the digits, or "part_" and the digits when an occurrence of
    the separator that begins in [u] takes the "_" in front of "part_". *)
Lemma split_go_last_any (ds : str) :
  Forall is_digit ds ->
  forall u skip cur,
    (skip <= length u)%nat ->
    last (split_go sep (u ++ sep ++ ds) skip cur) [] = ds \/
    last (split_go sep (u ++ sep ++ ds) skip cur) [] = lit "part_" ++ ds.
Proof.
  intros Hds. induction u as [|c u IH]; intros skip cur Hskip.
  - left. assert (skip = 0%nat) as -> by (simpl in Hskip; lia).
    cbn [app]. rewrite split_go_at_sep, split_go_digits by assumption. reflexivity.
  - destruct skip as [|k].
    + cbn [split_go app].
      destruct (startswith sep (c :: u ++ sep ++ ds)) eqn:Hm.
      * rewrite last_cons_nonempty by apply split_go_nonempty.
        destruct (Nat.le_gt_cases 5 (length u)) as [Hlen|Hlen]; [now apply IH|].
        right.
        apply startswith_prefix in Hm. destruct Hm as [rest Hm].
        destruct u as [|c2 [|c3 [|c4 [|c5 [|c6 u]]]]]; try (simpl in Hlen; lia);
          unfold lit in Hm; simpl in Hm; try discriminate Hm.
        injection Hm as -> -> -> -> -> _.
        change (length sep - 1)%nat with 5%nat.
        change (split_go sep ([112; 97; 114; 116]%N ++ sep ++ ds) 5 [])
          with (split_go sep (112 :: 97 :: 114 :: 116 :: 95 :: ds)%N 0 []).
        rewrite !split_go_pass by discriminate.
        rewrite split_go_pass_underscore, split_go_digits by assumption.
        reflexivity.
      * apply IH. lia.
    + cbn [split_go app]. apply IH. simpl in Hskip. lia.
Qed.

Lemma strip_keeps_head (c : char) (r : str) :
  isspace c = false -> exists r', strip (c :: r) = c :: r'.
Proof.
  intros Hc. unfold strip. simpl lstrip. rewrite Hc.
  destruct (rstrip_decompose (c :: r)) as [trail [Hw He]].
  destruct (rstrip (c :: r)) as [|x r'] eqn:E.
  - simpl in He. subst trail. simpl in Hw. rewrite Hc in Hw. discriminate.
  - simpl in He. injection He as <- _. eauto.
Qed.

(** [int] raises on a string that begins with "p". *)
Lemma int_part (s : str) : int (112%N :: s) = None.
Proof.
  unfold int. destruct (@strip_keeps_head 112%N s eq_refl) as [r' E].
  assert (E' : strip (112%N :: s) = 112%N :: r') by exact E.
  rewrite E'. reflexivity.
Qed.

(** The sort key of a chunk file is its chunk index plus one, or cannot
    be read; it is never another number. *)
Lemma sort_key_or_error (cfg : config) (i : nat) (stem : str) :
  sort_key (Some (output_audio_path cfg i stem)) = Some (Z.of_nat i + 1)%Z \/
  sort_key (Some (output_audio_path cfg i stem)) = None.
Proof.
  unfold sort_key. rewrite path_stem_output_audio_path.
  destruct (@str_of_int_positive (Z.of_nat i + 1) ltac:(lia)) as [Hd [Hi _]].
  unfold last_item, split.
  destruct (@split_go_last_any _ Hd stem 0 [] ltac:(lia)) as [-> | ->].
  - now left.
  - right. apply int_part.
Qed.

End SortKeyAnyStem.

Section SortByFacts.

Variable A : Type.

Lemma keys_of_defined (key : A -> option Z) (l : list A) (kl : list (Z * A)) :
  keys_of key l = Some kl -> forall x, In x l -> key x <> None.
Proof.
  revert kl. induction l as [|y l IH]; intros kl H x Hx; [contradiction|].
  simpl in H. destruct (key y) as [k|] eqn:Hy; [|discriminate].
  destruct (keys_of key l) as [kr|] eqn:Hl; [|discriminate].
  destruct Hx as [<-|Hx]; [congruence|]. exact (IH kr eq_refl x Hx).
Qed.

(** As [sort_by_rearranged], the keys being known for the indices below
    [n] only. *)
Lemma sort_by_rearranged_below (key : A -> option Z) (g : nat -> A) (n : nat) (l : list A) :
  Permutation l (map g (seq 0 n)) ->
  (forall i, (i < n)%nat -> key (g i) = Some (Z.of_nat i + 1)%Z) ->
  sort_by key l = Some (map g (seq 0 n)).
Proof.
  intros Hp Hk. unfold sort_by.
  set (value := fun x => match key x with Some k => k | None => 0%Z end).
  rewrite (@keys_of_total _ key value).
  2:{ intros x Hx. apply (Permutation_in _ Hp) in Hx. apply in_map_iff in Hx.
      destruct Hx as [i [<- Hi]]. apply in_seq in Hi. unfold value. now rewrite Hk by lia. }
  simpl. f_equal.
  rewrite (@sort_keyed_rearranged _ _ (map (fun i => ((Z.of_nat i + 1)%Z, g i)) (seq 0 n))).
  - rewrite map_map. reflexivity.
  - rewrite (Permutation_map (fun x => (value x, x)) Hp), map_map.
    erewrite map_ext_in; [reflexivity|]. intros i Hi. apply in_seq in Hi.
    unfold value. now rewrite Hk by lia.
  - apply increasing_keys. intros i j Hij. unfold key_lt. simpl. lia.
Qed.

End SortByFacts.

(** The manifests of a run: none, or the one of a document all of whose
    chunks were synthesized, listing the chunk files by chunk index. *)
Lemma manifest_cases (cfg : config) (w : world) (file : document) :
  let t := fst (process_file cfg w file) in
  manifests t = [] \/
  exists text chunks,
    doc_content file = Some text /\
    truthy (strip text) = true /\
    split_text_into_chunks text (MAX_CHUNK_SIZE cfg) = Some chunks /\
    (forall i, (i < length chunks)%nat -> first_success (synth w i) 0 3 <> None) /\
    manifests t
    = [(concat_file cfg, chunk_files cfg (path_stem (doc_path file)) (length chunks))].
Proof.
  intros t. subst t.
  destruct (doc_content file) as [text|] eqn:Hc.
  2:{ left. unfold process_file, process_file_body. now rewrite Hc. }
  destruct (truthy (strip text)) eqn:Ht.
  2:{ left. unfold process_file, process_file_body. rewrite Hc. simpl. now rewrite Ht. }
  destruct (split_text_into_chunks text (MAX_CHUNK_SIZE cfg)) as [chunks|] eqn:Hs.
  2:{ left. unfold process_file, process_file_body. rewrite Hc. simpl. now rewrite Ht, Hs. }
  rewrite (process_file_unfold cfg w file Hc Ht Hs). cbv zeta.
  set (stem := path_stem (doc_path file)).
  pose proof (task_events_no_manifest (pool_events_tasks cfg w stem chunks)) as Hpool.
  assert (Hfail : manifests (Read (doc_path file) :: pool_events cfg w stem chunks) = [])
    by exact Hpool.
  destruct (results (as_completed w (chunk_futures cfg w stem chunks)))
    as [e|audio_files] eqn:Hr; [now left|].
  destruct (results_collected cfg w stem chunks Hr) as [Hok Hp].
  destruct (sort_by sort_key audio_files) as [sorted|] eqn:Hsort; [|now left].
  right. exists text, chunks. split; [first [exact Hc|reflexivity]|].
  split; [first [exact Ht|reflexivity]|].
  split; [first [exact Hs|reflexivity]|]. split; [exact Hok|].
  assert (Hkeys : forall i, (i < length chunks)%nat ->
                            sort_key (Some (output_audio_path cfg i stem))
                            = Some (Z.of_nat i + 1)%Z).
  { intros i Hi. destruct (sort_key_or_error cfg i stem) as [H|H]; [exact H|].
    exfalso. unfold sort_by in Hsort.
    destruct (keys_of sort_key audio_files) as [kl|] eqn:Hk; [|discriminate].
    apply (keys_of_defined _ _ Hk (Some (output_audio_path cfg i stem))); [|exact H].
    apply (Permutation_in _ (Permutation_sym Hp)).
    apply (in_map (fun i => Some (output_audio_path cfg i stem))).
    apply in_seq. lia. }
  rewrite (@sort_by_rearranged_below _ sort_key
             (fun i => Some (output_audio_path cfg i stem)) (length chunks)
             audio_files Hp Hkeys) in Hsort.
  injection Hsort as <-. rewrite paths_of_chunk_files.
  destruct (ffmpeg_ok w); cbn [fst]; unfold manifests in *; simpl;
    rewrite flat_map_app, Hpool; reflexivity.
Qed.


(** X9 -- what a completed run went through: when [process_file] gets
    to its end (the source moved, "Finished processing" logged), the
    document was readable and not blank, the chunker returned, every
    chunk was synthesized within its three attempts, ffmpeg succeeded,
    the one manifest written lists the chunk files of all chunks by
    chunk index, and the last step was the move of the source to its
    processed path. Nothing is said of the other direction: a run with
    all of this can still fail where the output folder or the move
    does. *)
Theorem X9_completed_only_if_all_chunks_and_ffmpeg
        (cfg : config) (w : world) (file : document) :
  let t := fst (process_file cfg w file) in
  let stem := path_stem (doc_path file) in
  snd (process_file cfg w file) = Ended Completed ->
  exists text chunks,
    doc_content file = Some text /\
    truthy (strip text) = true /\
    split_text_into_chunks text (MAX_CHUNK_SIZE cfg) = Some chunks /\
    (forall i, (i < length chunks)%nat -> first_success (synth w i) 0 3 <> None) /\
    ffmpeg_ok w = true /\
    manifests t = [(concat_file cfg, chunk_files cfg stem (length chunks))] /\
    exists before, t = before ++ [Move (doc_path file) (processed_file_path cfg stem)].
Proof.
  intros t stem Hdone. subst t stem.
  destruct (process_file_shape cfg w file)
    as [[H|[H|H]]|[pool [Hp [[e H]|[[files [_ H]]|[files [Hff H]]]]]]];
    rewrite H in Hdone; cbn [snd] in Hdone; try discriminate.
  destruct (manifest_cases cfg w file) as [Hm|[text [chunks [Hc [Ht [Hs [Hok Hm]]]]]]].
  - exfalso. cbv zeta in Hm. rewrite H in Hm. cbn [fst] in Hm.
    unfold manifests in Hm. simpl in Hm. rewrite flat_map_app in Hm. simpl in Hm.
    destruct (flat_map _ pool); discriminate.
  - exists text, chunks. cbv zeta in Hm. repeat (split; [assumption|]).
    rewrite H. cbn [fst].
    exists (Read (doc_path file)
                 :: pool ++ assembly_events cfg (path_stem (doc_path file)) files).
    simpl. now rewrite <- app_assoc.
Qed.

Lemma X9_completed_only_if_all_chunks_and_ffmpeg_witness :
  let cfg := Build_config [lit "temp"] [lit "output"] 4 in
  let w := fails_twice order_2_0_1 in
  let file := text_file [lit "input"] "doc.txt" "aaa bbb ccc" in
  exists text chunks,
    doc_content file = Some text /\
    truthy (strip text) = true /\
    split_text_into_chunks text (MAX_CHUNK_SIZE cfg) = Some chunks /\
    (forall i, (i < length chunks)%nat -> first_success (synth w i) 0 3 <> None) /\
    ffmpeg_ok w = true /\
    manifests (fst (process_file cfg w file))
    = [(concat_file cfg, chunk_files cfg (path_stem (doc_path file)) (length chunks))] /\
    exists before,
      fst (process_file cfg w file)
      = before ++ [Move (doc_path file)
                        (processed_file_path cfg (path_stem (doc_path file)))].
Proof.
  intros cfg w file.
  apply (@X9_completed_only_if_all_chunks_and_ffmpeg cfg w file).
  reflexivity.
Defined.

(** X10 -- never a manifest in a wrong order: whatever the stem of the
    document, whatever the world does and in whatever order the chunk
    tasks complete, [process_file] either writes no manifest or writes
    one manifest that lists the chunk files of all chunks by chunk
    index. *)
Theorem X10_manifest_never_misordered (cfg : config) (w : world) (file : document) :
  let t := fst (process_file cfg w file) in
  manifests t = [] \/
  exists text chunks,
    doc_content file = Some text /\
    split_text_into_chunks text (MAX_CHUNK_SIZE cfg) = Some chunks /\
    manifests t
    = [(concat_file cfg, chunk_files cfg (path_stem (doc_path file)) (length chunks))].
Proof.
  destruct (manifest_cases cfg w file) as [H|[text [chunks [Hc [_ [Hs [_ H]]]]]]].
  - now left.
  - right. exists text, chunks. auto.
Qed.

(* ================================================================== *)
(** * Documents of one batch *)
(* ================================================================== *)

Lemma endswith_suffix (suffix s : str) :
  endswith suffix s = true -> exists pre, s = pre ++ suffix.
Proof.
  unfold endswith. intros H. apply startswith_prefix in H. destruct H as [rest H].
  exists (rev rest). apply (f_equal (@rev char)) in H.
  now rewrite rev_involutive, rev_app_distr, rev_involutive in H.
Qed.

(** The stem of a name [s ++ ".txt"] with a non-empty [s] is [s]. *)
Lemma path_stem_txt (folder : Path) (s : str) :
  s <> [] -> path_stem (folder // (s ++ lit ".txt")) = s.
Proof.
  intros Hs. unfold path_stem, path_name, joinpath. rewrite last_last.
  change (s ++ lit ".txt") with (s ++ 46%N :: lit "txt").
  rewrite rindex_last_occurrence by reflexivity.
  assert (0 < length s)%nat as Hpos by (destruct s; [congruence|simpl; lia]).
  rewrite length_app. simpl length.
  destruct (Nat.ltb_spec 0 (length s)); [|lia].
  destruct (Nat.ltb_spec (length s) (length s + 4 - 1)); [|lia].
  simpl andb. rewrite firstn_app, Nat.sub_diag, firstn_all. simpl. apply app_nil_r.
Qed.

(** A name made of the suffix alone keeps it: the stem of ".txt" is
    ".txt", which is also the stem of ".txt.txt". *)
Example stem_of_bare_suffix :
  path_stem [lit "input"; lit ".txt"] = lit ".txt" /\
  path_stem [lit "input"; lit ".txt.txt"] = lit ".txt".
Proof. split; reflexivity. Qed.

(** X11 -- two documents of a batch do not share working files or an
    output folder: for two names that [glob("*.txt")] selects, neither
    of them the bare ".txt", the stem is the name without ".txt"; if the
    names differ, so do the stems, the chunk files of the two documents
    are all different, and so are their output files. *)
Theorem X11_different_documents_different_files
        (cfg : config) (folder folder' : Path) (name name' : str) :
  endswith (lit ".txt") name = true ->
  endswith (lit ".txt") name' = true ->
  name <> lit ".txt" -> name' <> lit ".txt" ->
  name <> name' ->
  let stem := path_stem (folder // name) in
  let stem' := path_stem (folder' // name') in
  stem ++ lit ".txt" = name /\ stem' ++ lit ".txt" = name' /\
  stem <> stem' /\
  (forall i j, output_audio_path cfg i stem <> output_audio_path cfg j stem') /\
  OUTPUT_FOLDER cfg // stem // (stem ++ lit ".mp3")
  <> OUTPUT_FOLDER cfg // stem' // (stem' ++ lit ".mp3") /\
  processed_file_path cfg stem <> processed_file_path cfg stem'.
Proof.
  intros He He' Hn Hn' Hne stem stem'. subst stem stem'.
  apply endswith_suffix in He, He'. destruct He as [s ->]. destruct He' as [s' ->].
  assert (s <> []) as Hs by (intros ->; now apply Hn).
  assert (s' <> []) as Hs' by (intros ->; now apply Hn').
  rewrite !path_stem_txt by assumption.
  assert (s <> s') as Hss by (intros ->; now apply Hne).
  repeat split; try reflexivity; try assumption.
  - intros i j. now apply output_audio_path_isolated.
  - unfold joinpath. rewrite <- !app_assoc. intros H.
    apply app_inv_head in H. simpl in H. congruence.
  - unfold processed_file_path, joinpath. rewrite <- !app_assoc. intros H.
    apply app_inv_head in H. simpl in H. congruence.
Qed.

Lemma X11_different_documents_different_files_witness :
  let cfg := default_config in
  let stem := path_stem ([lit "input"] // lit "a.txt") in
  let stem' := path_stem ([lit "input"] // lit "a.b.txt") in
  stem ++ lit ".txt" = lit "a.txt" /\ stem' ++ lit ".txt" = lit "a.b.txt" /\
  stem <> stem' /\
  (forall i j, output_audio_path cfg i stem <> output_audio_path cfg j stem') /\
  OUTPUT_FOLDER cfg // stem // (stem ++ lit ".mp3")
  <> OUTPUT_FOLDER cfg // stem' // (stem' ++ lit ".mp3") /\
  processed_file_path cfg stem <> processed_file_path cfg stem'.
Proof.
  apply (@X11_different_documents_different_files
           default_config [lit "input"] [lit "input"] (lit "a.txt") (lit "a.b.txt"));
    try reflexivity; discriminate.
Defined.

(** The intermediate files of a run: chunk files of the document and
    the manifest. *)
Lemma intermediate_files_cases (cfg : config) (w : world) (file : document) (p : Path) :
  In p (intermediate_files (fst (process_file cfg w file))) ->
  p = concat_file cfg \/
  exists i, p = output_audio_path cfg i (path_stem (doc_path file)).
Proof.
  assert (Hpool : forall pool,
             Forall (task_event cfg (path_stem (doc_path file))) pool ->
             forall q, In q (intermediate_files pool) ->
                       exists i, q = output_audio_path cfg i (path_stem (doc_path file))).
  { intros pool Hp q Hq. unfold intermediate_files in Hq. apply in_flat_map in Hq.
    destruct Hq as [ev [Hev Hq]]. rewrite Forall_forall in Hp. specialize (Hp _ Hev).
    destruct ev; simpl in *; try contradiction.
    destruct Hq as [<-|[]]. exact Hp. }
  assert (Hasm : forall files rest q,
             intermediate_files rest = [] ->
             In q (intermediate_files
                     (assembly_events cfg (path_stem (doc_path file)) files ++ rest)) ->
             q = concat_file cfg).
  { intros files rest q Hrest Hq. unfold intermediate_files in *.
    rewrite flat_map_app, Hrest in Hq. simpl in Hq. destruct Hq as [<-|[]]. reflexivity. }
  destruct (process_file_shape cfg w file)
    as [[H|[H|H]]|[pool [Hp [[e H]|[[files [_ H]]|[files [_ H]]]]]]];
    rewrite H; cbn [fst]; intros Hin.
  - destruct Hin.
  - destruct Hin.
  - destruct Hin.
  - right. exact (Hpool pool Hp p Hin).
  - change (In p (intermediate_files
                    (pool ++ assembly_events cfg (path_stem (doc_path file)) files))) in Hin.
    unfold intermediate_files in Hin. rewrite flat_map_app in Hin.
    apply in_app_or in Hin. destruct Hin as [Hin|Hin]; [right; exact (Hpool pool Hp p Hin)|].
    left. apply (Hasm files [] p eq_refl). now rewrite app_nil_r.
  - change (In p (intermediate_files
                    (pool ++ assembly_events cfg (path_stem (doc_path file)) files
                          ++ [Move (doc_path file)
                                   (processed_file_path cfg (path_stem (doc_path file)))])))
      in Hin.
    unfold intermediate_files in Hin. rewrite flat_map_app in Hin.
    apply in_app_or in Hin. destruct Hin as [Hin|Hin]; [right; exact (Hpool pool Hp p Hin)|].
    left.
    exact (Hasm files [Move (doc_path file)
                            (processed_file_path cfg (path_stem (doc_path file)))]
                p eq_refl Hin).
Qed.

(** Resolving a path goes through it from the left. *)
Lemma normalize_from_app (d r acc : Path) :
  normalize_from acc (d ++ r) = normalize_from (rev (normalize_from acc d)) r.
Proof.
  revert acc. induction d as [|c d IH]; intros acc; simpl.
  - now rewrite rev_involutive.
  - repeat destruct (list_eq_dec N.eq_dec c _); apply IH.
Qed.

(** A name that is neither empty, "." nor ".." stays below the
    directory it is joined to. *)
Lemma within_join_name (d : Path) (name : str) (r : Path) :
  name <> [] -> name <> lit "." -> name <> lit ".." ->
  normalize (d ++ name :: r) = normalize_from (name :: rev (normalize d)) r.
Proof.
  intros H0 H1 H2. unfold normalize. rewrite normalize_from_app. simpl.
  destruct (list_eq_dec N.eq_dec name []); [contradiction|].
  destruct (list_eq_dec N.eq_dec name (lit ".")); [contradiction|].
  destruct (list_eq_dec N.eq_dec name (lit "..")); [contradiction|].
  reflexivity.
Qed.

(** The name of a chunk file is an ordinary name, whatever the stem. *)
Lemma chunk_file_name_ordinary (stem : str) (i : nat) :
  let name := stem ++ lit "_part_" ++ str_of_int (Z.of_nat i + 1) ++ lit ".mp3" in
  name <> [] /\ name <> lit "." /\ name <> lit ".." /\ In 95%N name.
Proof.
  intros name.
  assert (Hin : In 95%N name).
  { unfold name. apply in_or_app. right. left. reflexivity. }
  repeat split; try exact Hin; intros E; rewrite E in Hin; simpl in Hin;
    repeat (destruct Hin as [Hin|Hin]; [discriminate|]); exact Hin.
Qed.

(** A folder named by a stem other than ".." and an ordinary name in
    it: resolving them adds to the path, it takes nothing away. *)
Lemma normalize_from_stem_name (acc : Path) (stem name : str) :
  stem <> lit ".." -> name <> [] -> name <> lit "." -> name <> lit ".." ->
  exists x r, normalize_from acc [stem; name] = rev acc ++ x :: r.
Proof.
  intros Hs N0 N1 N2. cbn [normalize_from].
  destruct (list_eq_dec N.eq_dec name []); [contradiction|].
  destruct (list_eq_dec N.eq_dec name (lit ".")); [contradiction|].
  destruct (list_eq_dec N.eq_dec name (lit "..")); [contradiction|].
  destruct (list_eq_dec N.eq_dec stem []);
    [|destruct (list_eq_dec N.eq_dec stem (lit "."));
      [|destruct (list_eq_dec N.eq_dec stem (lit "..")); [contradiction|]]].
  - exists name, []. reflexivity.
  - exists name, []. reflexivity.
  - exists stem, [name]. cbn [rev]. rewrite <- !app_assoc. reflexivity.
Qed.

(** X12 -- where the intermediate files go: for a document whose stem is
    not ".." (the stem of a file named "...txt"), every chunk file and
    manifest that [process_file] writes lies within TEMP_FOLDER once "."
    and ".." are resolved in the paths, whatever the world does. For
    the stem ".." the chunk files are written to the parent of
    TEMP_FOLDER ([chunk_file_of_dotdot_outside_temp]). *)
Theorem X12_intermediate_files_within_temp
        (cfg : config) (w : world) (file : document) (p : Path) :
  path_stem (doc_path file) <> lit ".." ->
  In p (intermediate_files (fst (process_file cfg w file))) ->
  within (TEMP_FOLDER cfg) p = true.
Proof.
  intros Hstem Hin. unfold within.
  destruct (intermediate_files_cases cfg w file p Hin) as [->|[i ->]].
  - unfold concat_file, joinpath.
    rewrite within_join_name by discriminate.
    cbn [normalize_from rev]. rewrite rev_involutive. apply inside_join.
  - unfold output_audio_path, joinpath. rewrite <- app_assoc.
    destruct (chunk_file_name_ordinary (path_stem (doc_path file)) i)
      as [N0 [N1 [N2 _]]]. cbv zeta in N0, N1, N2.
    destruct (@normalize_from_stem_name
                (rev (normalize (TEMP_FOLDER cfg))) _ _ Hstem N0 N1 N2) as [x [r E]].
    unfold normalize at 2. rewrite normalize_from_app.
    fold (normalize (TEMP_FOLDER cfg)).
    change ([path_stem (doc_path file)] ++
            [path_stem (doc_path file) ++ lit "_part_"
                       ++ str_of_int (Z.of_nat i + 1) ++ lit ".mp3"])
      with [path_stem (doc_path file);
            path_stem (doc_path file) ++ lit "_part_"
                      ++ str_of_int (Z.of_nat i + 1) ++ lit ".mp3"].
    refine (eq_trans (f_equal (inside (normalize (TEMP_FOLDER cfg))) E) _).
    rewrite rev_involutive. apply inside_join.
Qed.

Lemma X12_intermediate_files_within_temp_witness :
  let cfg := default_config in
  let file := text_file [lit "input"] "a.b.txt" "hello" in
  within (TEMP_FOLDER cfg) (output_audio_path cfg 0 (lit "a.b")) = true.
Proof.
  intros cfg file.
  apply (@X12_intermediate_files_within_temp cfg (all_succeed in_index_order) file).
  - vm_compute. discriminate.
  - vm_compute. left. reflexivity.
Defined.

(** The document "...txt" has the stem "..": its chunk file is written
    next to TEMP_FOLDER, not within it. *)
Example chunk_file_of_dotdot_outside_temp :
  let cfg := default_config in
  let file := text_file [lit "input"] "...txt" "hello" in
  path_stem (doc_path file) = lit ".." /\
  In (output_audio_path cfg 0 (lit ".."))
     (intermediate_files (fst (process_file cfg (all_succeed in_index_order) file))) /\
  within (TEMP_FOLDER cfg) (output_audio_path cfg 0 (lit "..")) = false /\
  normalize (output_audio_path cfg 0 (lit "..")) = [lit ".._part_1.mp3"].
Proof. vm_compute. repeat split. left. reflexivity. Qed.

(* ================================================================== *)
(** * What the manifest lists *)
(* ================================================================== *)

Lemma writes_In (t : trace) (q : Path) : In q (writes t) <-> In (OpenWrite q) t.
Proof.
  unfold writes. rewrite in_flat_map. split.
  - intros [ev [Hev Hq]]. destruct ev; simpl in Hq; try contradiction.
    destruct Hq as [<-|[]]. exact Hev.
  - intros H. exists (OpenWrite q). split; [exact H|now left].
Qed.

(** The task of a chunk that is synthesized writes the chunk file. *)
Lemma pool_writes (cfg : config) (w : world) (stem : str) (chunks : list str) (i : nat) :
  (i < length chunks)%nat ->
  first_success (synth w i) 0 3 <> None ->
  In (OpenWrite (output_audio_path cfg i stem)) (pool_events cfg w stem chunks).
Proof.
  intros Hi Hok.
  destruct (@chunk_future_submitted cfg w stem chunks i Hi) as [chunk Hin].
  unfold pool_events. apply in_concat.
  exists (fst (generate_audio_with_retries cfg w chunk i stem default_retries)). split.
  - apply (in_map (fun f => fst (snd f)) _ _ Hin).
  - apply writes_In.
    pose proof (@retry_loop_spec cfg w chunk i stem default_retries 3 0
                                 ltac:(right; reflexivity)) as H.
    cbv zeta in H. destruct H as [_ H].
    destruct (first_success (synth w i) 0 3); [|congruence].
    destruct H as [_ [_ [_ H]]]. exact H.
Qed.

Lemma pool_in_run (cfg : config) (w : world) (file : document)
      (text : str) (chunks : list str) (ev : event) :
  doc_content file = Some text ->
  truthy (strip text) = true ->
  split_text_into_chunks text (MAX_CHUNK_SIZE cfg) = Some chunks ->
  In ev (pool_events cfg w (path_stem (doc_path file)) chunks) ->
  In ev (fst (process_file cfg w file)).
Proof.
  intros Hc Ht Hs Hin. rewrite (process_file_unfold cfg w file Hc Ht Hs). cbv zeta.
  destruct (results _) as [e|audio_files]; [now right|].
  destruct (sort_by sort_key audio_files) as [sorted|]; [|now right].
  destruct (ffmpeg_ok w); cbn [fst]; right; apply in_or_app; now left.
Qed.

Lemma chunk_files_NoDup (cfg : config) (stem : str) (n : nat) :
  NoDup (chunk_files cfg stem n).
Proof.
  unfold chunk_files. generalize 0%nat.
  induction n as [|n IH]; intros a; simpl; constructor; [|apply IH].
  intros Hin. apply in_map_iff in Hin. destruct Hin as [j [Hj Hin]].
  apply in_seq in Hin. apply output_audio_path_inj in Hj. lia.
Qed.

(** X13 -- the manifest lists only files of this run: every file a
    manifest of [process_file] lists was written by a chunk task of the
    same run, and no file is listed twice. *)
Theorem X13_manifest_lists_written_files
        (cfg : config) (w : world) (file : document) (p : Path) (files : list Path) :
  In (p, files) (manifests (fst (process_file cfg w file))) ->
  NoDup files /\
  forall q, In q files -> In q (writes (fst (process_file cfg w file))).
Proof.
  intros Hin.
  destruct (manifest_cases cfg w file) as [H|[text [chunks [Hc [Ht [Hs [Hok H]]]]]]];
    rewrite H in Hin; [destruct Hin|].
  destruct Hin as [E|[]]. injection E as <- <-. split; [apply chunk_files_NoDup|].
  intros q Hq. unfold chunk_files in Hq. apply in_map_iff in Hq.
  destruct Hq as [i [<- Hi]]. apply in_seq in Hi.
  apply writes_In. apply (pool_in_run cfg w file _ Hc Ht Hs).
  apply pool_writes; [lia|]. apply Hok. lia.
Qed.

Lemma X13_manifest_lists_written_files_witness :
  let cfg := Build_config [lit "temp"] [lit "output"] 4 in
  let run := process_file cfg (fails_twice order_2_0_1)
                          (text_file [lit "input"] "doc.txt" "aaa bbb ccc") in
  NoDup (chunk_files cfg (lit "doc") 3) /\
  forall q, In q (chunk_files cfg (lit "doc") 3) -> In q (writes (fst run)).
Proof.
  apply (@X13_manifest_lists_written_files
           (Build_config [lit "temp"] [lit "output"] 4) (fails_twice order_2_0_1)
           (text_file [lit "input"] "doc.txt" "aaa bbb ccc")
           (concat_file (Build_config [lit "temp"] [lit "output"] 4))).
  vm_compute. now left.
Defined.
